(** * Coin game: the server-side game module over its Redis store

    The development follows [src/server/game.js].  Every function of that
    module talks to Redis through callbacks: a handler sends commands, and
    the reply to each command later runs the callback given with it.  The
    model keeps this shape.  A handler is a list of [action]s; the client
    keeps the commands it has sent in a first-in first-out queue together
    with their callbacks; Redis serves the queue one command at a time.

    Conventions of the embedding:
    - a position record ["x,y"] and a coin field ["r,c"] are kept as the
      pair of integers they render; [res.split(',')] followed by unary
      plus is the inverse of that rendering;
    - the values drawn by [randomPoint] and [permutation] (module
      [./gameutil], not part of the sources) are arguments of the handler
      that draws them;
    - Redis answers every command; error replies are modelled only where
      a handler can provoke one by itself ([MGET] without a key). *)

From stdpp Require Import gmap strings list sorting fin_maps.
From Stdlib Require Import ZArith Lia.
From Stdlib Require OrderedTypeEx.

Local Open Scope Z_scope.

(** ** Constants of game.js *)

Definition WIDTH : Z := 64.
Definition HEIGHT : Z := 64.
Definition MAX_PLAYER_NAME_LENGTH : Z := 32.
Definition NUM_COINS : nat := 100.

(** ** The store *)

Abbreviation Pos := (Z * Z)%type.

(** The four key families of the storage layout documented in game.js:
    [usednames] (set), [player:<name>] (string), [scores] (sorted set),
    [coins] (hash). *)
Record Store := mkStore {
  usednames : gset string;
  players : gmap string Pos;
  scores : gmap string Z;
  coins : gmap Pos Z
}.

Definition empty_store : Store := mkStore ∅ ∅ ∅ ∅.

Definition with_usednames (u : gset string) (s : Store) : Store :=
  mkStore u (players s) (scores s) (coins s).
Definition with_players (p : gmap string Pos) (s : Store) : Store :=
  mkStore (usednames s) p (scores s) (coins s).
Definition with_scores (sc : gmap string Z) (s : Store) : Store :=
  mkStore (usednames s) (players s) sc (coins s).
Definition with_coins (c : gmap Pos Z) (s : Store) : Store :=
  mkStore (usednames s) (players s) (scores s) c.

(** ** Redis commands and their replies *)

(** Commands that game.js queues inside a [multi()] block or sends bare. *)
Inductive write :=
| SADD (member : string)
| SET (name : string) (value : Pos)
| ZADD (score : Z) (member : string)
| HSETNX (field : Pos) (value : Z).

(** What Redis answers to a [write]: an integer or the status [OK]. *)
Inductive status :=
| Int (n : Z)
| OK.

(** JavaScript truthiness of a reply value. *)
Definition truthy (r : status) : bool :=
  match r with
  | Int n => negb (n =? 0)
  | OK => true
  end.

Definition do_write (w : write) (s : Store) : Store * status :=
  match w with
  | SADD member =>
      if decide (member ∈ usednames s) then (s, Int 0)
      else (with_usednames ({[member]} ∪ usednames s) s, Int 1)
  | SET name value => (with_players (<[name := value]> (players s)) s, OK)
  | ZADD score member =>
      (with_scores (<[member := score]> (scores s)) s,
       match scores s !! member with Some _ => Int 0 | None => Int 1 end)
  | HSETNX field value =>
      match coins s !! field with
      | Some _ => (s, Int 0)
      | None => (with_coins (<[field := value]> (coins s)) s, Int 1)
      end
  end.

(** [MULTI ... EXEC]: the queued writes run back to back, the reply is the
    array of their replies. *)
Fixpoint do_multi (ws : list write) (s : Store) : Store * list status :=
  match ws with
  | [] => (s, [])
  | w :: ws' =>
      let '(s1, r) := do_write w s in
      let '(s2, rs) := do_multi ws' s1 in
      (s2, r :: rs)
  end.

(** An element of the flat array [ZREVRANGE ... WITHSCORES] answers. *)
Inductive bulk :=
| Member (name : string)
| Score (score : Z).

(** The commands sent by game.js, indexed by the type of the reply handed
    to the callback as [res]. *)
Inductive command : Type -> Type :=
| SISMEMBER (member : string) : command Z
| MULTI (ws : list write) : command (list status)
| DEL : command Z
| GET (name : string) : command (option Pos)
| HGET (field : Pos) : command (option Z)
| ZINCRBY (increment : Z) (member : string) : command Z
| HDEL (field : Pos) : command Z
| PLAIN (w : write) : command status
| HLEN : command Z
| KEYS : command (list string)
| MGET (keys : list string) : command (option (list (option Pos)))
| ZREVRANGE : command (list bulk)
| HGETALL : command (option (gmap Pos Z)).

(** Order of the sorted set [scores]: by score, equal scores by member
    name compared character by character. *)
Definition zset_leb (a b : string * Z) : bool :=
  (a.2 <? b.2) || ((a.2 =? b.2) && String.leb a.1 b.1).

(** [ZREVRANGE scores 0 -1 WITHSCORES]: every member from the highest rank
    down, each followed by its score. *)
Definition zrevrange (sc : gmap string Z) : list (string * Z) :=
  merge_sort (fun a b => Is_true (zset_leb b a)) (map_to_list sc).

Definition with_scores_flat (l : list (string * Z)) : list bulk :=
  flat_map (fun e => [Member e.1; Score e.2]) l.

Definition player_key (name : string) : string := "player:" +:+ name.

(** The string stored under a top-level key: only the [player:<name>] keys
    hold strings. *)
Definition get_string (key : string) (s : Store) : option Pos :=
  if String.prefix "player:" key
  then players s !! String.substring 7 (String.length key - 7)%nat key
  else None.

Definition exec {R : Type} (c : command R) (s : Store) : Store * R :=
  match c in command R return Store * R with
  | SISMEMBER member => (s, if decide (member ∈ usednames s) then 1 else 0)
  | MULTI ws => do_multi ws s
  | DEL => (with_coins ∅ s, if decide (coins s = ∅) then 0 else 1)
  | GET name => (s, players s !! name)
  | HGET field => (s, coins s !! field)
  | ZINCRBY increment member =>
      let new := default 0 (scores s !! member) + increment in
      (with_scores (<[member := new]> (scores s)) s, new)
  | HDEL field =>
      (with_coins (delete field (coins s)) s,
       match coins s !! field with Some _ => 1 | None => 0 end)
  | PLAIN w => do_write w s
  | HLEN => (s, Z.of_nat (size (coins s)))
  | KEYS => (s, player_key <$> (map_to_list (players s)).*1)
  | MGET keys =>
      (s, match keys with
          | [] => None
          | _ => Some ((fun k => get_string k s) <$> keys)
          end)
  | ZREVRANGE => (s, with_scores_flat (zrevrange (scores s)))
  | HGETALL => (s, if decide (coins s = ∅) then None else Some (coins s))
  end.

(** ** Handlers, the command queue and the event loop *)

Inductive error :=
| TypeError.

Inductive message :=
| CoinsCleared
| Replies (res : list status).

(** The snapshot object [{positions, scores, coins}] built by [state] in
    the second copy of the module. *)
Record Snapshot := mkSnapshot {
  snap_positions : gmap string (option Pos);
  snap_scores : list (option bulk * option bulk);
  snap_coins : option (gmap Pos Z)
}.

(** What a run lets the outside see. *)
Inductive event :=
| Console (m : message)          (* console.log(m) *)
| Callback (nameWorks : bool)    (* callback(null, nameWorks) *)
| CallbackErr                    (* callback(err) *)
| CallbackState (snap : Snapshot) (* callback(null, snapshot) *)
| ReturnNull                     (* a top-level [return null] *)
| Uncaught (e : error).          (* an exception nobody catches *)

(** One statement of a handler: send a command together with the callback
    for its reply, produce an event, or throw. *)
#[local] Unset Elimination Schemes.
Inductive action : Type :=
| Send {R : Type} (c : command R) (k : R -> list action)
| Emit (e : event)
| Throw (e : error).
#[local] Set Elimination Schemes.

(** A command sent without a callback. *)
Definition Send_ {R : Type} (c : command R) : action :=
  Send c (fun _ => []).

(** A command waiting for Redis, with its callback. *)
Inductive pending : Type :=
| Pending {R : Type} (c : command R) (k : R -> list action).

Record machine := mkMachine {
  db : Store;
  queue : list pending;
  log : list event;
  alive : bool
}.

Definition idle (s : Store) : machine := mkMachine s [] [] true.

(** Run the statements of one handler: sends go to the back of the queue,
    an exception ends the handler and the process. *)
Fixpoint perform (acts : list action) (m : machine) : machine :=
  match acts with
  | [] => m
  | Send c k :: rest =>
      perform rest (mkMachine (db m) (queue m ++ [Pending c k]) (log m) (alive m))
  | Emit e :: rest =>
      perform rest (mkMachine (db m) (queue m) (log m ++ [e]) (alive m))
  | Throw e :: _ =>
      mkMachine (db m) (queue m) (log m ++ [Uncaught e]) false
  end.

(** Redis serves the oldest pending command; its reply runs the callback
    if the process is still there to receive it. *)
Definition step (m : machine) : machine :=
  match queue m with
  | [] => m
  | Pending c k :: q =>
      let '(s, r) := exec c (db m) in
      let m' := mkMachine s q (log m) (alive m) in
      if alive m then perform (k r) m' else m'
  end.

Fixpoint drain (fuel : nat) (m : machine) : machine :=
  match fuel with
  | O => m
  | S fuel' =>
      match queue m with
      | [] => m
      | _ => drain fuel' (step m)
      end
  end.

(** A call arriving at an idle server whose commands are all served before
    anything else happens.  Eight commands are the most one call sends
    ([move] with a pickup and a refill). *)
Definition call_fuel : nat := 8.

Definition run (handler : list action) (s : Store) : machine :=
  drain call_fuel (perform handler (idle s)).

(** ** ./gameutil *)

(** Modelled from the spec: [clamp(value, low, high)] of ./gameutil, which
    is not among the sources: [low] if [value < low], [high] if
    [value > high], else [value]. *)
Definition clamp (value low high : Z) : Z :=
  if value <? low then low else if high <? value then high else value.

(** Modelled from the spec: [randomPoint(width, height)] of ./gameutil
    yields an integer pair within [[0,width) x [0,height)]. *)
Definition is_randomPoint (width height : Z) (p : Pos) : Prop :=
  0 <= p.1 < width /\ 0 <= p.2 < height.

(** Modelled from the spec: [permutation(n)] of ./gameutil yields the
    indices [0 .. n-1], each exactly once, in some order. *)
Definition is_permutation (n : Z) (l : list Z) : Prop :=
  l ≡ₚ seqZ 0 n.

(** ** The handlers of src/server/game.js *)

(** [sum && num] *)
Definition js_and (sum num : status) : status :=
  if truthy sum then num else sum.

Definition addPlayer (name : string) (point : Pos) : list action :=
  [ Send (SISMEMBER name) (fun res =>
      if (Z.of_nat (String.length name) =? 0)
         || (MAX_PLAYER_NAME_LENGTH <? Z.of_nat (String.length name))
         || negb (res =? 0)
      then [ Emit (Callback false) ]
      else
        [ Send (MULTI [ SADD name; SET name point; ZADD 0 name ]) (fun res =>
            Emit (Console (Replies res)) ::
            match res with
            | [] => [ Throw TypeError ]   (* reduce of an empty array *)
            | r :: rs => [ Emit (Callback (truthy (fold_left js_and rs r))) ]
            end) ]) ].

Definition coinValue (i : nat) : Z :=
  if (i <? 50)%nat then 1
  else if (i <? 75)%nat then 2
  else if (i <? 95)%nat then 5
  else 10.

(** [`${Math.floor(position / WIDTH)},${Math.floor(position % WIDTH)}`] *)
Definition index (position : Z) : Pos :=
  (position / WIDTH, Z.rem position WIDTH).

Definition coin_batch (perm : list Z) : list write :=
  imap (fun i position => HSETNX (index position) (coinValue i))
       (take NUM_COINS perm).

Definition placeCoins (perm : list Z) : list action :=
  [ Send DEL (fun _ =>
      [ Emit (Console CoinsCleared);
        Send (MULTI (coin_batch perm)) (fun res =>
          [ Emit (Console (Replies res)) ]) ]) ].

(** [state] sends its two reads and returns null; the statements written
    after [return null] never run. *)
Definition state : list action :=
  [ Send KEYS (fun names =>
      [ Send (MGET names) (fun positions => []) ]);
    Emit ReturnNull ].

(** [{ U: [0, -1], R: [1, 0], D: [0, 1], L: [-1, 0] }[direction]], for a
    direction that is a string; the lookup of a name that every object
    inherits (such as [toString]) is not modelled. *)
Definition delta (direction : string) : option (Z * Z) :=
  if String.eqb direction "U" then Some (0, -1)
  else if String.eqb direction "R" then Some (1, 0)
  else if String.eqb direction "D" then Some (0, 1)
  else if String.eqb direction "L" then Some (-1, 0)
  else None.

Definition move (direction name : string) (perm : list Z) : list action :=
  match delta direction with
  | Some (dx, dy) =>
      [ Send (GET name) (fun res =>
          match res with
          | None => [ Throw TypeError ]   (* res.split on null *)
          | Some (x, y) =>
              let newX := clamp (x + dx) 0 (WIDTH - 1) in
              let newY := clamp (y + dy) 0 (HEIGHT - 1) in
              [ Send (HGET (newX, newY)) (fun res =>
                  match res with
                  | Some value =>
                      [ Send_ (ZINCRBY value name);
                        Send_ (HDEL (newX, newY)) ]
                  | None => []
                  end ++
                  [ Send_ (PLAIN (SET name (newX, newY)));
                    Send HLEN (fun res =>
                      if res =? 0 then placeCoins perm else []) ]) ]
          end) ]
  | None => []
  end.

(** The module ends with a call of [placeCoins()]. *)
Definition startup (perm : list Z) : list action := placeCoins perm.

(** ** Stores reached by the handlers *)

Definition name_valid (name : string) : Prop :=
  (1 <= String.length name <= 32)%nat.

#[global] Instance name_valid_dec name : Decision (name_valid name).
Proof. unfold name_valid. apply _. Defined.

(** The store after the batch [sadd; set; zadd] of [addPlayer]. *)
Definition joined (name : string) (point : Pos) (s : Store) : Store :=
  mkStore ({[name]} ∪ usednames s) (<[name := point]> (players s))
          (<[name := 0]> (scores s)) (coins s).

Definition zadd_reply (name : string) (s : Store) : status :=
  match scores s !! name with Some _ => Int 0 | None => Int 1 end.

(** The cells and values that [placeCoins] queues, in rank order. *)
Definition coin_cells (perm : list Z) : list (Pos * Z) :=
  imap (fun i position => (index position, coinValue i)) (take NUM_COINS perm).

Definition coin_field (perm : list Z) : gmap Pos Z :=
  list_to_map (coin_cells perm).

Definition refilled (perm : list Z) (s : Store) : Store :=
  with_coins (coin_field perm) s.

Definition refill_log (perm : list Z) (s : Store) : list event :=
  [Console CoinsCleared;
   Console (Replies (do_multi (coin_batch perm) (with_coins ∅ s)).2)].

(** The cell a player at [p] steps to: each axis clamped to the grid. *)
Definition destination (d : Z * Z) (p : Pos) : Pos :=
  (clamp (p.1 + d.1) 0 (WIDTH - 1), clamp (p.2 + d.2) 0 (HEIGHT - 1)).

(** The store after the pickup, if any, and the position write. *)
Definition moved (name : string) (dest : Pos) (s : Store) : Store :=
  match coins s !! dest with
  | Some value =>
      mkStore (usednames s) (<[name := dest]> (players s))
              (<[name := default 0 (scores s !! name) + value]> (scores s))
              (delete dest (coins s))
  | None => with_players (<[name := dest]> (players s)) s
  end.

(** ** Histories *)

(** The calls the server receives, each with the random values it would
    draw from ./gameutil. *)
Inductive call :=
| AddPlayer (name : string) (point : Pos)
| Move (direction name : string) (perm : list Z)
| State
| Startup (perm : list Z).

Definition handler (c : call) : list action :=
  match c with
  | AddPlayer name point => addPlayer name point
  | Move direction name perm => move direction name perm
  | State => state
  | Startup perm => startup perm
  end.

(** Calls served one after the other, each on a process that is up. *)
Definition serve_calls (cs : list call) (s : Store) : Store :=
  foldl (fun s c => db (run (handler c) s)) s cs.

(** What happens at the server: a call arrives and its handler runs, or
    Redis serves the oldest pending command. *)
Inductive occurrence :=
| Arrive (c : call)
| Serve.

Definition occur (o : occurrence) (m : machine) : machine :=
  match o with
  | Arrive c => if alive m then perform (handler c) m else m
  | Serve => step m
  end.

Definition play (os : list occurrence) (m : machine) : machine :=
  foldl (fun m o => occur o m) m os.

(** ** Invariants *)

(** Registry, position records and score board name the same players. *)
Definition consistent (s : Store) : Prop :=
  dom (players s) = usednames s ∧ dom (scores s) = usednames s.

(** The coin field is not empty. *)
Definition stocked (s : Store) : Prop := coins s ≠ ∅.

Definition in_grid (p : Pos) : Prop :=
  0 <= p.1 < WIDTH ∧ 0 <= p.2 < HEIGHT.


(** The random values of a call are what ./gameutil promises. *)
Definition fair (c : call) : Prop :=
  match c with
  | AddPlayer _ point => is_randomPoint WIDTH HEIGHT point
  | Move _ _ perm | Startup perm => is_permutation (WIDTH * HEIGHT) perm
  | State => True
  end.

(** Number of refills a log shows: [placeCoins] logs 'coins cleared' once
    per invocation. *)
Definition is_cleared (e : event) : bool :=
  match e with
  | Console CoinsCleared => true
  | _ => false
  end.

Definition refills (l : list event) : nat :=
  length (List.filter is_cleared l).

(** ** A small store for examples: Alice at (5,5) and Bob at (0,0), both
    with score 0, and two coins. *)
Definition example_store : Store :=
  mkStore {["Alice"; "Bob"]}
          (<["Alice" := (5, 5)]> (<["Bob" := (0, 0)]> ∅))
          (<["Alice" := 0]> (<["Bob" := 0]> ∅))
          (<[(6, 5) := 2]> (<[(9, 9) := 1]> ∅)).

(** How many coins of a given value a field holds. *)
Definition coins_of_value (v : Z) (field : gmap Pos Z) : nat :=
  size (filter (fun cell_value : Pos * Z => cell_value.2 = v) field).

(** The same players with a single coin left, next to Alice. *)
Definition last_coin_store : Store :=
  with_coins {[(6, 5) := 2]} example_store.

(** Two moves arrive before Redis has answered anything: Alice steps onto
    the last coin, Bob onto an empty cell.  Fourteen commands are sent in
    all. *)
Definition two_movers : list occurrence :=
  [ Arrive (Move "R" "Alice" (seqZ 0 4096));
    Arrive (Move "R" "Bob" (reverse (seqZ 0 4096))) ]
  ++ replicate 14 Serve.

(** ** The second copy of the module (src/unnamed/part_000)

    Its [addPlayer], [placeCoins] and [move] send the same commands with
    the same callbacks as those of game.js (it does not log the replies).
    Its [state] takes a callback and assembles the snapshot. *)
Module Part000.

(** [name.substring(7)] *)
Definition substring7 (name : string) : string :=
  String.substring 7 (String.length name - 7) name.

(** [names.forEach((name, index) => positions[name.substring(7)] = res[index])];
    an index past the end of [res] reads undefined, kept as [None]. *)
Fixpoint forEach_names (index : nat) (names : list string)
    (res : list (option Pos)) (positions : gmap string (option Pos))
    : gmap string (option Pos) :=
  match names with
  | [] => positions
  | name :: rest =>
      forEach_names (S index) rest res
        (<[substring7 name := mjoin (res !! index)]> positions)
  end.

(** [for (i = 0; i < res2.length; i += 2) scores.push([res2[i], res2[i + 1]])] *)
Fixpoint pairs (res2 : list bulk) : list (option bulk * option bulk) :=
  match res2 with
  | [] => []
  | [a] => [(Some a, None)]
  | a :: b :: rest => (Some a, Some b) :: pairs rest
  end.

Definition state : list action :=
  [ Send KEYS (fun names =>
      [ Send (MGET names) (fun res =>
          match res with
          | None => [ Emit CallbackErr ]
          | Some res =>
              let positions := forEach_names 0 names res ∅ in
              [ Send ZREVRANGE (fun res2 =>
                  let scores := pairs res2 in
                  [ Send HGETALL (fun coins =>
                      [ Emit (CallbackState
                                (mkSnapshot positions scores coins)) ]) ]) ]
          end) ]);
    Emit ReturnNull ].

(** The score list of a snapshot, as name and score. *)
Definition ranking (sc : gmap string Z) : list (option bulk * option bulk) :=
  (fun e : string * Z => (Some (Member e.1), Some (Score e.2)))
    <$> zrevrange sc.

(** The other three handlers of the second copy: the same commands and
    callbacks as in game.js, without the [console.log] calls. *)
Definition addPlayer (name : string) (point : Pos) : list action :=
  [ Send (SISMEMBER name) (fun res =>
      if (Z.of_nat (String.length name) =? 0)
         || (MAX_PLAYER_NAME_LENGTH <? Z.of_nat (String.length name))
         || negb (res =? 0)
      then [ Emit (Callback false) ]
      else
        [ Send (MULTI [ SADD name; SET name point; ZADD 0 name ]) (fun res =>
            match res with
            | [] => [ Throw TypeError ]
            | r :: rs => [ Emit (Callback (truthy (fold_left js_and rs r))) ]
            end) ]) ].

Definition placeCoins (perm : list Z) : list action :=
  [ Send DEL (fun _ =>
      [ Send (MULTI (coin_batch perm)) (fun res => []) ]) ].

Definition move (direction name : string) (perm : list Z) : list action :=
  match delta direction with
  | Some (dx, dy) =>
      [ Send (GET name) (fun res =>
          match res with
          | None => [ Throw TypeError ]
          | Some (x, y) =>
              let newX := clamp (x + dx) 0 (WIDTH - 1) in
              let newY := clamp (y + dy) 0 (HEIGHT - 1) in
              [ Send (HGET (newX, newY)) (fun res =>
                  match res with
                  | Some value =>
                      [ Send_ (ZINCRBY value name);
                        Send_ (HDEL (newX, newY)) ]
                  | None => []
                  end ++
                  [ Send_ (PLAIN (SET name (newX, newY)));
                    Send HLEN (fun res =>
                      if res =? 0 then placeCoins perm else []) ]) ]
          end) ]
  | None => []
  end.

End Part000.

(** ** Measures used by the further properties *)

(** Sum of the values of a map: all scores, or all coins on the field. *)
Definition total `{Countable K} (m : gmap K Z) : Z :=
  map_fold (fun _ v acc => v + acc) 0 m.

(** The coin field holds at most [NUM_COINS] coins, on cells of the grid,
    with values 1, 2, 5 or 10. *)
Definition field_ok (s : Store) : Prop :=
  (size (coins s) <= NUM_COINS)%nat
  ∧ ∀ cell v, coins s !! cell = Some v →
      in_grid cell ∧ (v = 1 ∨ v = 2 ∨ v = 5 ∨ v = 10).




(** Two admissions of one name arrive before Redis has answered; four
    commands are sent in all. *)
Definition two_admissions (name : string) (p1 p2 : Pos) : list occurrence :=
  [ Arrive (AddPlayer name p1); Arrive (AddPlayer name p2) ]
  ++ replicate 4 Serve.

(** Two moves arrive before Redis has answered; without a refill twelve
    commands are sent at most. *)
Definition two_moves (dir1 name1 dir2 name2 : string) (perm1 perm2 : list Z)
    : list occurrence :=
  [ Arrive (Move dir1 name1 perm1); Arrive (Move dir2 name2 perm2) ]
  ++ replicate 12 Serve.



(** * Calls served one at a time *)

Lemma drain_send {R} (c : command R) k q s l fuel :
  drain (S fuel) (mkMachine s (Pending c k :: q) l true) =
  drain fuel (perform (k (exec c s).2) (mkMachine (exec c s).1 q l true)).
Proof. cbn [drain queue step db alive log]. by destruct (exec c s). Qed.

Lemma drain_done fuel s l a : drain fuel (mkMachine s [] l a) = mkMachine s [] l a.
Proof. by destruct fuel. Qed.

Ltac serve :=
  repeat first
    [ rewrite drain_done
    | rewrite drain_send;
      cbn [perform idle queue db log alive app exec fst snd Send_] ].

Lemma run_addPlayer_invalid name point s :
  ¬ name_valid name →
  run (addPlayer name point) s = mkMachine s [] [Callback false] true.
Proof.
  intros Hbad. unfold run, addPlayer, call_fuel.
  cbn [perform idle queue db log alive app]. rewrite drain_send.
  cbn [exec fst snd].
  replace ((Z.of_nat (String.length name) =? 0)
           || (MAX_PLAYER_NAME_LENGTH <? Z.of_nat (String.length name)))
    with true; [by serve|].
  symmetry. unfold name_valid, MAX_PLAYER_NAME_LENGTH in *.
  apply orb_true_iff. rewrite Z.eqb_eq, Z.ltb_lt. lia.
Qed.

Lemma run_addPlayer_taken name point s :
  name ∈ usednames s →
  run (addPlayer name point) s = mkMachine s [] [Callback false] true.
Proof.
  intros Hin. unfold run, addPlayer, call_fuel.
  cbn [perform idle queue db log alive app]. rewrite drain_send.
  cbn [exec fst snd]. rewrite decide_True by done.
  rewrite orb_true_r. by serve.
Qed.

Lemma run_addPlayer_fresh name point s :
  name_valid name → name ∉ usednames s →
  run (addPlayer name point) s =
  mkMachine (joined name point s) []
    [Console (Replies [Int 1; OK; zadd_reply name s]);
     Callback (truthy (zadd_reply name s))] true.
Proof.
  intros Hlen Hnew. unfold run, addPlayer, call_fuel.
  cbn [perform idle queue db log alive app]. rewrite drain_send.
  cbn [exec fst snd]. rewrite decide_False by done.
  replace ((Z.of_nat (String.length name) =? 0)
           || (MAX_PLAYER_NAME_LENGTH <? Z.of_nat (String.length name)))
    with false.
  2:{ symmetry. unfold name_valid, MAX_PLAYER_NAME_LENGTH in *.
      apply orb_false_iff. rewrite Z.eqb_neq, Z.ltb_ge. lia. }
  cbn [orb negb Z.eqb perform queue db log alive app].
  rewrite drain_send.
  cbn [exec do_multi do_write]. rewrite decide_False by done.
  cbn [fst snd perform queue db log alive app fold_left js_and truthy Z.eqb negb].
  rewrite drain_done. unfold zadd_reply, joined. cbn.
  by destruct (scores s !! name).
Qed.

Lemma run_addPlayer_cases name point s :
  run (addPlayer name point) s = mkMachine s [] [Callback false] true
  ∨ (name_valid name ∧ (name ∉ usednames s)
     ∧ run (addPlayer name point) s =
       mkMachine (joined name point s) []
         [Console (Replies [Int 1; OK; zadd_reply name s]);
          Callback (truthy (zadd_reply name s))] true).
Proof.
  destruct (decide (name ∈ usednames s)) as [Hin|Hnew].
  { left. by apply run_addPlayer_taken. }
  destruct (decide (name_valid name)) as [Hlen|Hbad].
  - right. split_and!; [done..|]. by apply run_addPlayer_fresh.
  - left. by apply run_addPlayer_invalid.
Qed.

Lemma coin_batch_cells perm :
  coin_batch perm = (fun e => HSETNX e.1 e.2) <$> coin_cells perm.
Proof. unfold coin_batch, coin_cells. by rewrite fmap_imap. Qed.

Lemma do_multi_hsetnx (l : list (Pos * Z)) s :
  (do_multi ((fun e => HSETNX e.1 e.2) <$> l) s).1 =
  with_coins (coins s ∪ list_to_map l) s.
Proof.
  revert s. induction l as [|[k v] l IH]; intros s.
  - cbn. rewrite (right_id_L ∅ (∪)). by destruct s.
  - cbn [fmap list_fmap do_multi do_write fst snd].
    destruct (coins s !! k) as [v0|] eqn:Hk.
    + specialize (IH s). destruct (do_multi _ s) as [s2 rs]. cbn in *.
      subst s2. f_equal. apply map_eq. intros j.
      rewrite !lookup_union, lookup_insert.
      case_decide; subst; [|done].
      rewrite Hk. by destruct (list_to_map l !! j).
    + specialize (IH (with_coins (<[k:=v]> (coins s)) s)).
      destruct (do_multi _ (with_coins _ s)) as [s2 rs]. cbn in *.
      subst s2. unfold with_coins. cbn. f_equal. apply map_eq. intros j.
      rewrite !lookup_union, !lookup_insert.
      case_decide; subst; [|done].
      rewrite Hk. by destruct (list_to_map l !! j).
Qed.

Lemma serve_placeCoins perm s l fuel :
  drain (S (S fuel)) (perform (placeCoins perm) (mkMachine s [] l true)) =
  mkMachine (refilled perm s) [] (l ++ refill_log perm s) true.
Proof.
  unfold placeCoins. cbn [perform queue db log alive app].
  rewrite drain_send. cbn [exec fst snd perform queue db log alive app].
  rewrite drain_send. cbn [exec fst snd perform queue db log alive app].
  rewrite drain_done. unfold refill_log, refilled. f_equal.
  - rewrite coin_batch_cells, do_multi_hsetnx. unfold with_coins; cbn.
    by rewrite (left_id_L ∅ (∪)).
  - by rewrite <- app_assoc.
Qed.

Lemma run_placeCoins perm s :
  run (placeCoins perm) s =
  mkMachine (refilled perm s) [] (refill_log perm s) true.
Proof. unfold run, call_fuel, idle. by rewrite serve_placeCoins. Qed.

Lemma run_state s : run state s = mkMachine s [] [ReturnNull] true.
Proof.
  unfold run, call_fuel, state.
  cbn [perform idle queue db log alive app]. by serve.
Qed.

Lemma run_move_ignored direction name perm s :
  delta direction = None → run (move direction name perm) s = idle s.
Proof. intros Hd. unfold run, move. rewrite Hd. done. Qed.

Lemma run_move_unknown direction name perm s d :
  delta direction = Some d → players s !! name = None →
  run (move direction name perm) s =
  mkMachine s [] [Uncaught TypeError] false.
Proof.
  intros Hd Hp. unfold run, move, call_fuel. rewrite Hd. destruct d as [dx dy].
  cbn [perform idle queue db log alive app]. rewrite drain_send.
  cbn [exec fst snd]. rewrite Hp. cbn [perform queue db log alive app].
  by rewrite drain_done.
Qed.

Lemma run_move_known direction name perm s d p :
  delta direction = Some d → players s !! name = Some p →
  run (move direction name perm) s =
  let s1 := moved name (destination d p) s in
  if decide (coins s1 = ∅)
  then mkMachine (refilled perm s1) [] (refill_log perm s1) true
  else idle s1.
Proof.
  intros Hd Hp. unfold run, move, call_fuel. rewrite Hd.
  destruct d as [dx dy], p as [x y].
  cbn [perform idle queue db log alive app]. rewrite drain_send.
  cbn [exec fst snd]. rewrite Hp. cbn [perform queue db log alive app].
  rewrite drain_send. cbn [exec fst snd].
  unfold destination, moved. cbn [fst snd].
  set (dest := (clamp (x + dx) 0 (WIDTH - 1), clamp (y + dy) 0 (HEIGHT - 1))).
  destruct (coins s !! dest) as [value|] eqn:Hc;
    cbn [app perform queue db log alive Send_];
    repeat (rewrite drain_send;
            cbn [exec do_write fst snd perform queue db log alive app
                 with_scores with_coins with_players usednames players
                 scores coins]).
  - case_decide as He.
    + rewrite He, map_size_empty. change (Z.of_nat 0 =? 0) with true.
      cbv iota. by rewrite serve_placeCoins.
    + apply map_size_non_empty_iff in He.
      destruct (Z.eqb_spec (Z.of_nat (size (delete dest (coins s)))) 0); [lia|].
      cbn [perform]. by rewrite drain_done.
  - case_decide as He.
    + cbn in He. rewrite He, map_size_empty. change (Z.of_nat 0 =? 0) with true.
      cbv iota. rewrite serve_placeCoins. unfold with_players, refilled, refill_log.
      cbn. by rewrite He.
    + cbn in He. apply map_size_non_empty_iff in He.
      destruct (Z.eqb_spec (Z.of_nat (size (coins s))) 0); [lia|].
      cbn [perform]. by rewrite drain_done.
Qed.

Lemma run_move_settled direction name perm s d p :
  delta direction = Some d → players s !! name = Some p →
  let m := run (move direction name perm) s in
  let s1 := moved name (destination d p) s in
  queue m = [] ∧ alive m = true
  ∧ db m = (if decide (coins s1 = ∅) then refilled perm s1 else s1)
  ∧ log m = (if decide (coins s1 = ∅) then refill_log perm s1 else []).
Proof.
  intros Hd Hp. cbv zeta. erewrite run_move_known by done. cbv zeta.
  by case_decide.
Qed.

Lemma run_move_cases direction name perm s :
  db (run (move direction name perm) s) = s
  ∨ ∃ d p, delta direction = Some d ∧ players s !! name = Some p
      ∧ (db (run (move direction name perm) s) = moved name (destination d p) s
         ∨ db (run (move direction name perm) s) =
           refilled perm (moved name (destination d p) s)).
Proof.
  destruct (delta direction) as [d|] eqn:Hd.
  2:{ left. by rewrite run_move_ignored. }
  destruct (players s !! name) as [p|] eqn:Hp.
  2:{ left. by erewrite run_move_unknown. }
  right. exists d, p. split_and!; [done..|].
  erewrite run_move_known by done. cbv zeta. case_decide; eauto.
Qed.

(** Every call is served completely: when [run] stops, no command is
    pending. *)
Lemma run_quiescent c s : queue (run (handler c) s) = [].
Proof.
  destruct c as [name point|direction name perm| |perm]; cbn [handler].
  - by destruct (run_addPlayer_cases name point s) as [->|(_ & _ & ->)].
  - destruct (delta direction) as [d|] eqn:Hd.
    2:{ by rewrite run_move_ignored. }
    destruct (players s !! name) as [p|] eqn:Hp.
    2:{ by erewrite run_move_unknown. }
    by destruct (run_move_settled direction name perm s d p Hd Hp) as [? _].
  - by rewrite run_state.
  - unfold startup. by rewrite run_placeCoins.
Qed.

Lemma play_serve_idle n m : queue m = [] → play (replicate n Serve) m = m.
Proof.
  intros Hq. induction n as [|n IH]; [done|].
  cbn [replicate play foldl occur]. unfold step. rewrite Hq. exact IH.
Qed.

Lemma drain_play fuel m : drain fuel m = play (replicate fuel Serve) m.
Proof.
  revert m. induction fuel as [|fuel IH]; intros m; [done|].
  cbn [drain replicate play foldl occur].
  destruct (queue m) eqn:Hq.
  - unfold step. rewrite Hq. symmetry. by apply play_serve_idle.
  - apply IH.
Qed.

(** [run] is the schedule in which the call arrives at an idle server and
    Redis then serves its commands without any other arrival. *)
Lemma run_play c s :
  run (handler c) s = play (Arrive c :: replicate call_fuel Serve) (idle s).
Proof. unfold run. by rewrite drain_play. Qed.

Lemma moved_usednames name dest s : usednames (moved name dest s) = usednames s.
Proof. unfold moved. by destruct (coins s !! dest). Qed.

Lemma moved_players name dest s :
  players (moved name dest s) = <[name := dest]> (players s).
Proof. unfold moved. by destruct (coins s !! dest). Qed.

Lemma moved_scores_other name dest s other :
  other ≠ name → scores (moved name dest s) !! other = scores s !! other.
Proof.
  intros Hne. unfold moved. destruct (coins s !! dest); [|done].
  cbn. by rewrite lookup_insert_ne.
Qed.

(** * The cells drawn for the coin field *)

Lemma index_inj a b : 0 <= a → 0 <= b → index a = index b → a = b.
Proof.
  unfold index, WIDTH. intros Ha Hb [= Hq Hr].
  rewrite !Z.rem_mod_nonneg in Hr by lia.
  rewrite (Z.div_mod a 64), (Z.div_mod b 64) by lia. congruence.
Qed.

Lemma index_in_grid a : 0 <= a < WIDTH * HEIGHT → in_grid (index a).
Proof.
  unfold index, in_grid, WIDTH, HEIGHT. intros Ha. cbn [fst snd].
  rewrite Z.rem_mod_nonneg by lia.
  pose proof (Z.mod_pos_bound a 64).
  assert (a / 64 < 64) by (apply Z.div_lt_upper_bound; lia).
  assert (0 <= a / 64) by (apply Z.div_pos; lia). lia.
Qed.

Section permutation.
Variable perm : list Z.
Hypothesis Hperm : is_permutation (WIDTH * HEIGHT) perm.

Lemma perm_NoDup : NoDup perm.
Proof. unfold is_permutation in Hperm. rewrite Hperm. apply NoDup_seqZ. Qed.

Lemma perm_range x : x ∈ perm → 0 <= x < WIDTH * HEIGHT.
Proof.
  unfold is_permutation in Hperm. rewrite Hperm, elem_of_seqZ. lia.
Qed.

Lemma perm_length : length perm = 4096%nat.
Proof.
  unfold is_permutation in Hperm. rewrite Hperm, length_seqZ. done.
Qed.

Lemma drawn_length : length (take NUM_COINS perm) = 100%nat.
Proof. rewrite length_take, perm_length. done. Qed.

Lemma drawn_range x : x ∈ take NUM_COINS perm → 0 <= x < WIDTH * HEIGHT.
Proof.
  intros Hx. apply perm_range. apply elem_of_take in Hx as (i & Hi & _).
  by eapply list_elem_of_lookup_2.
Qed.

Lemma coin_cells_fst : (coin_cells perm).*1 = index <$> take NUM_COINS perm.
Proof.
  unfold coin_cells. rewrite fmap_imap.
  by rewrite (imap_ext _ (const index)), imap_const.
Qed.

Lemma coin_cells_snd : (coin_cells perm).*2 = coinValue <$> seq 0 100.
Proof.
  unfold coin_cells. rewrite fmap_imap.
  rewrite (imap_ext _ (fun j _ => coinValue j)) by done.
  by rewrite imap_seq_0, drawn_length.
Qed.

Lemma coin_cells_NoDup : NoDup (coin_cells perm).*1.
Proof.
  rewrite coin_cells_fst. apply NoDup_fmap_2_strong.
  - intros a b Ha Hb. apply index_inj.
    + by apply drawn_range in Ha as [? _].
    + by apply drawn_range in Hb as [? _].
  - eapply sublist_NoDup; [apply perm_NoDup|apply sublist_take].
Qed.

Lemma coin_field_size : size (coin_field perm) = 100%nat.
Proof.
  unfold coin_field. rewrite map_size_list_to_map by apply coin_cells_NoDup.
  unfold coin_cells. by rewrite length_imap, drawn_length.
Qed.

Lemma coin_field_rank i position :
  (i < 100)%nat → perm !! i = Some position →
  coin_field perm !! index position = Some (coinValue i).
Proof.
  intros Hi Hpos. apply elem_of_list_to_map_1; [apply coin_cells_NoDup|].
  unfold coin_cells.
  apply (elem_of_lookup_imap_2
           (fun i position => (index position, coinValue i))).
  by rewrite lookup_take_lt.
Qed.

Lemma coin_field_cell cell value :
  coin_field perm !! cell = Some value →
  ∃ i position, (i < 100)%nat ∧ perm !! i = Some position
                ∧ cell = index position ∧ value = coinValue i.
Proof.
  intros Hc. apply elem_of_list_to_map_2 in Hc. unfold coin_cells in Hc.
  apply elem_of_lookup_imap_1 in Hc as (i & position & [= -> ->] & Hl).
  apply lookup_take_Some in Hl as [Hl Hi]. unfold NUM_COINS in Hi.
  by exists i, position.
Qed.

End permutation.

Lemma length_filter_snd (v : Z) (l : list (Pos * Z)) :
  length (filter (fun cell_value : Pos * Z => cell_value.2 = v) l) =
  length (filter (fun x => x = v) l.*2).
Proof.
  induction l as [|[k x] l IH]; [done|].
  rewrite fmap_cons, !filter_cons. cbn [snd].
  destruct (decide (x = v)); cbn; by rewrite IH.
Qed.

Lemma coins_of_value_list (v : Z) (l : list (Pos * Z)) :
  NoDup l.*1 →
  coins_of_value v (list_to_map l) = length (filter (fun x => x = v) l.*2).
Proof.
  intros Hnd. unfold coins_of_value.
  rewrite map_filter_alt, map_size_list_to_map.
  - rewrite (map_to_list_to_map l) by done. apply length_filter_snd.
  - eapply sublist_NoDup; [apply (NoDup_fst_map_to_list (list_to_map l))|].
    apply fmap_sublist, sublist_filter.
Qed.

Lemma coin_field_values perm :
  is_permutation (WIDTH * HEIGHT) perm →
  coins_of_value 1 (coin_field perm) = 50%nat
  ∧ coins_of_value 2 (coin_field perm) = 25%nat
  ∧ coins_of_value 5 (coin_field perm) = 20%nat
  ∧ coins_of_value 10 (coin_field perm) = 5%nat.
Proof.
  intros Hperm. unfold coin_field.
  rewrite !coins_of_value_list by (by apply coin_cells_NoDup).
  rewrite coin_cells_snd by done. by vm_compute.
Qed.

Lemma coinValue_tiers i :
  ((i < 50)%nat → coinValue i = 1)
  ∧ ((50 <= i < 75)%nat → coinValue i = 2)
  ∧ ((75 <= i < 95)%nat → coinValue i = 5)
  ∧ ((95 <= i)%nat → coinValue i = 10).
Proof.
  unfold coinValue.
  destruct (Nat.ltb_spec i 50), (Nat.ltb_spec i 75), (Nat.ltb_spec i 95);
    split_and!; intros; first [done | lia].
Qed.

Lemma do_multi_hsetnx_replies (l : list (Pos * Z)) s :
  NoDup l.*1 → (∀ k, k ∈ l.*1 → coins s !! k = None) →
  (do_multi ((fun e => HSETNX e.1 e.2) <$> l) s).2 =
  replicate (length l) (Int 1).
Proof.
  revert s. induction l as [|[k v] l IH]; intros s Hnd Hfree; [done|].
  rewrite fmap_cons in Hnd. apply NoDup_cons in Hnd as [Hk Hnd].
  cbn [fmap list_fmap do_multi do_write fst snd].
  rewrite (Hfree k) by (apply elem_of_cons; by left).
  specialize (IH (with_coins (<[k:=v]> (coins s)) s) Hnd).
  destruct (do_multi _ (with_coins _ s)) as [s2 rs]. cbn in *.
  f_equal. apply IH. intros j Hj.
  rewrite lookup_insert_ne by (intros ->; done).
  apply Hfree. apply elem_of_cons. by right.
Qed.

Lemma refill_log_fair perm s :
  is_permutation (WIDTH * HEIGHT) perm →
  refill_log perm s =
  [Console CoinsCleared; Console (Replies (replicate 100 (Int 1)))].
Proof.
  intros Hperm. unfold refill_log.
  rewrite coin_batch_cells, do_multi_hsetnx_replies.
  - unfold coin_cells. by rewrite length_imap, drawn_length.
  - by apply coin_cells_NoDup.
  - intros k _. apply lookup_empty.
Qed.

(** * Invariants of the store *)

Lemma usednames_run c s : usednames s ⊆ usednames (db (run (handler c) s)).
Proof.
  destruct c as [name point|direction name perm| |perm]; cbn [handler].
  - destruct (run_addPlayer_cases name point s) as [->|(_ & _ & ->)];
      cbn; set_solver.
  - destruct (run_move_cases direction name perm s)
      as [->|(d & p & _ & _ & [->| ->])];
      cbn; rewrite ?moved_usednames; set_solver.
  - by rewrite run_state.
  - unfold startup. by rewrite run_placeCoins.
Qed.

Lemma usednames_serve_calls cs s : usednames s ⊆ usednames (serve_calls cs s).
Proof.
  revert s. induction cs as [|c cs IH]; intros s; [done|].
  cbn. etrans; [apply (usednames_run c)|apply IH].
Qed.


Lemma consistent_moved name dest s p :
  players s !! name = Some p → consistent s → consistent (moved name dest s).
Proof.
  intros Hp [Hpl Hsc].
  assert (name ∈ usednames s) as Hin.
  { rewrite <- Hpl. apply elem_of_dom. eauto. }
  unfold moved, consistent. destruct (coins s !! dest); cbn;
    rewrite ?dom_insert_L; set_solver.
Qed.

Lemma consistent_run c s : consistent s → consistent (db (run (handler c) s)).
Proof.
  intros Hs. destruct c as [name point|direction name perm| |perm];
    cbn [handler].
  - destruct (run_addPlayer_cases name point s) as [->|(_ & _ & ->)];
      [done|]. destruct Hs as [Hpl Hsc]. unfold consistent, joined. cbn.
    rewrite !dom_insert_L. set_solver.
  - destruct (run_move_cases direction name perm s)
      as [->|(d & p & _ & Hp & [->| ->])]; [done|..].
    + by eapply consistent_moved.
    + eapply consistent_moved in Hs; [|done]. exact Hs.
  - by rewrite run_state.
  - unfold startup. by rewrite run_placeCoins.
Qed.

Lemma consistent_serve_calls cs s :
  consistent s → consistent (serve_calls cs s).
Proof.
  revert s. induction cs as [|c cs IH]; intros s Hs; [done|].
  cbn. apply IH. by apply consistent_run.
Qed.

Lemma consistent_fresh name s :
  consistent s → name ∉ usednames s →
  players s !! name = None ∧ scores s !! name = None.
Proof.
  intros [Hpl Hsc] Hnew. split; apply not_elem_of_dom; congruence.
Qed.






Lemma delta_unit direction d :
  delta direction = Some d →
  d = (0, -1) ∨ d = (1, 0) ∨ d = (0, 1) ∨ d = (-1, 0).
Proof.
  unfold delta. repeat case_match; intros; simplify_eq; auto.
Qed.




(** * Admission *)

(** C1.  On a consistent store, a name of 1 to 32 characters that is not
    yet in the registry is accepted by [addPlayer] (the callback receives
    [true]); after that, whatever calls are served in between, every
    further [addPlayer] of the same name is refused (the callback receives
    [false], the only way game.js reports a taken name) and leaves the
    store as it found it.  More generally a refused admission on a
    consistent store has written nothing: registry, position records,
    score board and coin field are those from before the call. *)
Theorem addPlayer_first_then_taken s name point :
  consistent s → name_valid name → name ∉ usednames s →
  let m := run (addPlayer name point) s in
  queue m = []
  ∧ log m = [Console (Replies [Int 1; OK; Int 1]); Callback true]
  ∧ (∀ cs point',
       let s' := serve_calls cs (db m) in
       run (addPlayer name point') s' = mkMachine s' [] [Callback false] true)
  ∧ (∀ s0 name0 point0,
       consistent s0 →
       let m0 := run (addPlayer name0 point0) s0 in
       Callback false ∈ log m0 → db m0 = s0).
Proof.
  intros Hs Hlen Hnew m. subst m.
  rewrite run_addPlayer_fresh by done.
  destruct (consistent_fresh name s Hs Hnew) as [_ Hsc].
  unfold zadd_reply. rewrite Hsc. cbn [queue log db truthy Z.eqb negb].
  split; [done|]. split; [done|]. split.
  - intros cs point'. apply run_addPlayer_taken.
    apply (usednames_serve_calls cs). cbn. set_solver.
  - intros s0 name0 point0 Hs0.
    destruct (run_addPlayer_cases name0 point0 s0)
      as [Hrej|(Hv & Hn & Hadm)].
    + by rewrite Hrej.
    + rewrite Hadm. destruct (consistent_fresh name0 s0 Hs0 Hn) as [_ Hsc0].
      unfold zadd_reply. rewrite Hsc0. cbn. intros Hin.
      apply elem_of_cons in Hin as [?|Hin]; [done|].
      apply elem_of_cons in Hin as [?|Hin]; [done|].
      by apply elem_of_nil in Hin.
Qed.

Lemma addPlayer_first_then_taken_witness :
  let m := run (addPlayer "Alice" (5, 0)) empty_store in
  queue m = []
  ∧ log m = [Console (Replies [Int 1; OK; Int 1]); Callback true]
  ∧ (∀ cs point',
       let s' := serve_calls cs (db m) in
       run (addPlayer "Alice" point') s' = mkMachine s' [] [Callback false] true)
  ∧ (∀ s0 name0 point0,
       consistent s0 →
       let m0 := run (addPlayer name0 point0) s0 in
       Callback false ∈ log m0 → db m0 = s0).
Proof.
  apply (addPlayer_first_then_taken empty_store "Alice" (5, 0)).
  - split; reflexivity.
  - unfold name_valid. simpl. lia.
  - simpl. apply not_elem_of_empty.
Defined.

(** C6.  A name that is empty or longer than 32 characters is refused by
    [addPlayer] whatever the store holds: the callback receives [false]
    (game.js reports no reason beyond that), no command that writes is
    sent, and the store is the one from before the call. *)
Theorem addPlayer_invalid_name s name point :
  (String.length name = 0 ∨ 32 < String.length name)%nat →
  run (addPlayer name point) s = mkMachine s [] [Callback false] true.
Proof.
  intros Hbad. apply run_addPlayer_invalid. unfold name_valid. lia.
Qed.

Lemma addPlayer_invalid_name_witness :
  run (addPlayer "" (1, 2)) (joined "Bob" (7, 7) empty_store) =
  mkMachine (joined "Bob" (7, 7) empty_store) [] [Callback false] true.
Proof.
  apply (addPlayer_invalid_name (joined "Bob" (7, 7) empty_store) "" (1, 2)).
  left. reflexivity.
Defined.

(** C10.  On a consistent store, every [addPlayer(n)], accepted or
    refused, leaves the coin field and the position record and score of
    every player that existed before unchanged.  When it is accepted, [n]
    was in none of the three collections and the call adds [n] to the
    registry, one position record for [n] and one score entry (0) for [n],
    and nothing else. *)
Theorem addPlayer_frame s name point :
  consistent s →
  let m := run (addPlayer name point) s in
  queue m = []
  ∧ coins (db m) = coins s
  ∧ (∀ other, is_Some (players s !! other) →
       players (db m) !! other = players s !! other
       ∧ scores (db m) !! other = scores s !! other)
  ∧ (Callback true ∈ log m →
       (name ∉ usednames s) ∧ usednames (db m) = {[name]} ∪ usednames s
       ∧ players s !! name = None
       ∧ players (db m) = <[name := point]> (players s)
       ∧ scores s !! name = None
       ∧ scores (db m) = <[name := 0]> (scores s))
  ∧ (Callback true ∈ log m ∨ db m = s).
Proof.
  intros Hs m. subst m.
  split; [apply (run_quiescent (AddPlayer name point))|].
  destruct (run_addPlayer_cases name point s) as [Hrej|(Hv & Hn & Hadm)].
  - rewrite Hrej. cbn. split_and!; [done|done| |by right].
    intros Hin. apply elem_of_cons in Hin as [?|Hin]; [done|].
    by apply elem_of_nil in Hin.
  - rewrite Hadm. destruct (consistent_fresh name s Hs Hn) as [Hpl Hsc].
    unfold zadd_reply. rewrite Hsc. cbn. split_and!; [done| |done|].
    + intros other [p Hp].
      assert (other ≠ name) by congruence.
      by rewrite !lookup_insert_ne.
    + left. set_solver.
Qed.

Lemma addPlayer_frame_witness :
  let s := joined "Bob" (7, 7) empty_store in
  let m := run (addPlayer "Alice" (5, 0)) s in
  queue m = []
  ∧ coins (db m) = coins s
  ∧ (∀ other, is_Some (players s !! other) →
       players (db m) !! other = players s !! other
       ∧ scores (db m) !! other = scores s !! other)
  ∧ (Callback true ∈ log m →
       ("Alice" ∉ usednames s) ∧ usednames (db m) = {["Alice"]} ∪ usednames s
       ∧ players s !! "Alice" = None
       ∧ players (db m) = <["Alice" := (5, 0)]> (players s)
       ∧ scores s !! "Alice" = None
       ∧ scores (db m) = <["Alice" := 0]> (scores s))
  ∧ (Callback true ∈ log m ∨ db m = s).
Proof.
  apply (addPlayer_frame (joined "Bob" (7, 7) empty_store) "Alice" (5, 0)).
  split; vm_compute; reflexivity.
Defined.

(** * Movement *)

(** C2.  On a consistent store with a non-empty coin field, a move of a
    player with a position record in one of the four directions always
    writes the clamped destination as the player's position.  If the
    destination cell holds a coin of value [v], the player's score grows
    by exactly [v], no other score changes, and the coin is deleted from
    the field (when it was the last coin, the emptied field is refilled at
    once, see C5).  If the destination holds no coin, the score board and
    the coin field are the same after the move. *)
Theorem move_pickup s direction name perm d p :
  consistent s → stocked s →
  delta direction = Some d → players s !! name = Some p →
  let dest := destination d p in
  let m := run (move direction name perm) s in
  queue m = []
  ∧ players (db m) = <[name := dest]> (players s)
  ∧ (∀ v, coins s !! dest = Some v →
       ∃ before,
         scores s !! name = Some before
         ∧ scores (db m) = <[name := before + v]> (scores s)
         ∧ coins (db m) =
           (if decide (delete dest (coins s) = ∅) then coin_field perm
            else delete dest (coins s)))
  ∧ (coins s !! dest = None →
       scores (db m) = scores s ∧ coins (db m) = coins s).
Proof.
  intros [Hpl Hsc] Hst Hd Hp dest m.
  destruct (run_move_settled direction name perm s d p Hd Hp)
    as (Hq & _ & Hdb & _). fold m dest in Hq, Hdb.
  split; [done|]. split; [|split].
  - rewrite Hdb. case_decide; cbn; by rewrite moved_players.
  - intros v Hv.
    assert (is_Some (scores s !! name)) as [before Hb].
    { apply elem_of_dom. rewrite Hsc, <- Hpl. apply elem_of_dom. eauto. }
    exists before. split; [done|]. rewrite Hdb. unfold moved. rewrite Hv, Hb.
    cbn [coins]. destruct (decide (delete dest (coins s) = ∅)); by split.
  - intros Hnone. rewrite Hdb. unfold moved. rewrite Hnone. cbn.
    by rewrite decide_False.
Qed.

Lemma move_pickup_witness :
  let dest := destination (1, 0) (5, 5) in
  let m := run (move "R" "Alice" []) example_store in
  queue m = []
  ∧ players (db m) = <["Alice" := dest]> (players example_store)
  ∧ (∀ v, coins example_store !! dest = Some v →
       ∃ before,
         scores example_store !! "Alice" = Some before
         ∧ scores (db m) = <["Alice" := before + v]> (scores example_store)
         ∧ coins (db m) =
           (if decide (delete dest (coins example_store) = ∅)
            then coin_field []
            else delete dest (coins example_store)))
  ∧ (coins example_store !! dest = None →
       scores (db m) = scores example_store
       ∧ coins (db m) = coins example_store).
Proof.
  apply (move_pickup example_store "R" "Alice" [] (1, 0) (5, 5)).
  - split; vm_compute; reflexivity.
  - unfold stocked. vm_compute. discriminate.
  - reflexivity.
  - vm_compute. reflexivity.
Defined.

(** C4.  A player with position record [(x, y)] inside the grid who moves
    in one of the four directions [U], [R], [D], [L] (deltas [(0,-1)],
    [(1,0)], [(0,1)], [(-1,0)]) has afterwards a position record
    [(x', y')] with [0 <= x' < 64] and [0 <= y' < 64] that is either
    [(x, y)] plus the delta, or [(x, y)] itself when that step would leave
    the grid; so it is at most one unit away along one axis.  Moving [U]
    from [(5, 0)] leaves the record at [(5, 0)]. *)
Theorem move_position_clamped s direction name perm d x y :
  delta direction = Some d → players s !! name = Some (x, y) →
  in_grid (x, y) →
  let m := run (move direction name perm) s in
  (∃ x' y',
      players (db m) !! name = Some (x', y')
      ∧ 0 <= x' < 64 ∧ 0 <= y' < 64
      ∧ ((x', y') = (x + d.1, y + d.2)
         ∨ ((x', y') = (x, y) ∧ ¬ in_grid (x + d.1, y + d.2)))
      ∧ Z.abs (x' - x) + Z.abs (y' - y) <= 1)
  ∧ (delta "U" = Some (0, -1) ∧ delta "R" = Some (1, 0)
     ∧ delta "D" = Some (0, 1) ∧ delta "L" = Some (-1, 0))
  ∧ ((x, y) = (5, 0) → direction = "U" →
     players (db m) !! name = Some (5, 0)).
Proof.
  intros Hd Hp [Hx Hy] m. cbn in Hx, Hy.
  destruct (run_move_settled direction name perm s d (x, y) Hd Hp)
    as (_ & _ & Hdb & _). fold m in Hdb.
  assert (players (db m) !! name = Some (destination d (x, y))) as Hpos.
  { rewrite Hdb. case_decide; cbn; rewrite moved_players;
      apply lookup_insert_eq. }
  unfold WIDTH, HEIGHT in *. split; [|split; [done|]].
  - exists (clamp (x + d.1) 0 63), (clamp (y + d.2) 0 63).
    split; [exact Hpos|].
    unfold in_grid, WIDTH, HEIGHT. cbn [fst snd].
    destruct (delta_unit _ _ Hd) as [->|[->|[->| ->]]]; cbn [fst snd];
      unfold clamp;
      repeat match goal with
             | |- context [?a <? ?b] => destruct (Z.ltb_spec a b)
             end;
      (split; [lia|]); (split; [lia|]);
      (split; [|lia]);
      first [ left; f_equal; lia | right; split; [f_equal; lia|lia] ].
  - intros [= -> ->] ->. rewrite Hpos.
    cbn in Hd. by simplify_eq.
Qed.

Lemma move_position_clamped_witness :
  let s := joined "Alice" (5, 0) empty_store in
  let m := run (move "U" "Alice" []) s in
  (∃ x' y',
      players (db m) !! "Alice" = Some (x', y')
      ∧ 0 <= x' < 64 ∧ 0 <= y' < 64
      ∧ ((x', y') = (5 + 0, 0 + -1)
         ∨ ((x', y') = (5, 0) ∧ ¬ in_grid (5 + 0, 0 + -1)))
      ∧ Z.abs (x' - 5) + Z.abs (y' - 0) <= 1)
  ∧ (delta "U" = Some (0, -1) ∧ delta "R" = Some (1, 0)
     ∧ delta "D" = Some (0, 1) ∧ delta "L" = Some (-1, 0))
  ∧ ((5, 0) = (5, 0) → "U" = "U" →
     players (db m) !! "Alice" = Some (5, 0)).
Proof.
  apply (move_position_clamped (joined "Alice" (5, 0) empty_store)
           "U" "Alice" [] (0, -1) 5 0).
  - reflexivity.
  - vm_compute. reflexivity.
  - unfold in_grid, WIDTH, HEIGHT. simpl. lia.
Defined.

(** C9.  [move(direction, n)] changes nothing but the position record of
    [n], the score of [n] and the coin field: the registry is the same
    afterwards, and so are the position record and the score of every
    other player. *)
Theorem move_frame s direction name perm :
  let m := run (move direction name perm) s in
  queue m = []
  ∧ usednames (db m) = usednames s
  ∧ ∀ other, other ≠ name →
      players (db m) !! other = players s !! other
      ∧ scores (db m) !! other = scores s !! other.
Proof.
  intros m. subst m.
  split; [apply (run_quiescent (Move direction name perm))|].
  destruct (run_move_cases direction name perm s)
    as [->|(d & p & _ & _ & [->| ->])]; [done|..];
    cbn; rewrite moved_usednames, moved_players; (split; [done|]);
    intros other Hne; rewrite lookup_insert_ne by done;
    by rewrite moved_scores_other.
Qed.

(** C8 (the code at the failing input).  When [move] is called with one of
    the four directions for a name without position record, [GET] answers
    null and [res.split(',')] throws a TypeError that nothing catches: the
    call is not silent.  The store is left as it was. *)
Theorem move_unknown_player_throws s direction name perm d :
  delta direction = Some d → players s !! name = None →
  run (move direction name perm) s =
  mkMachine s [] [Uncaught TypeError] false.
Proof. apply run_move_unknown. Qed.

Lemma move_unknown_player_throws_witness :
  run (move "U" "Nobody" []) (joined "Alice" (5, 0) empty_store) =
  mkMachine (joined "Alice" (5, 0) empty_store) [] [Uncaught TypeError] false.
Proof.
  apply (move_unknown_player_throws
           (joined "Alice" (5, 0) empty_store) "U" "Nobody" [] (0, -1)).
  - reflexivity.
  - vm_compute. reflexivity.
Defined.

(** * The coin field *)

(** C3.  Whatever the store holds, [placeCoins()] run with a permutation
    of the 4096 cell indices leaves a coin field of exactly 100 coins, all
    on cells of the 64 x 64 grid; every one of its 100 [hsetnx] writes
    takes effect (so the 100 cells are distinct), the coin written for the
    index of rank [i] has the value of that rank (1 for ranks 0-49, 2 for
    50-74, 5 for 75-94, 10 for 95-99), and the field holds exactly 50
    coins of value 1, 25 of value 2, 20 of value 5 and 5 of value 10.
    Registry, position records and scores are not touched. *)
Theorem placeCoins_field s perm :
  is_permutation (WIDTH * HEIGHT) perm →
  let m := run (placeCoins perm) s in
  queue m = []
  ∧ log m = [Console CoinsCleared; Console (Replies (replicate 100 (Int 1)))]
  ∧ db m = with_coins (coins (db m)) s
  ∧ size (coins (db m)) = 100%nat
  ∧ (∀ cell value, coins (db m) !! cell = Some value → in_grid cell)
  ∧ (∀ i position,
       (i < 100)%nat → perm !! i = Some position →
       coins (db m) !! index position = Some (coinValue i))
  ∧ (∀ i, ((i < 50)%nat → coinValue i = 1)
          ∧ ((50 <= i < 75)%nat → coinValue i = 2)
          ∧ ((75 <= i < 95)%nat → coinValue i = 5)
          ∧ ((95 <= i)%nat → coinValue i = 10))
  ∧ coins_of_value 1 (coins (db m)) = 50%nat
  ∧ coins_of_value 2 (coins (db m)) = 25%nat
  ∧ coins_of_value 5 (coins (db m)) = 20%nat
  ∧ coins_of_value 10 (coins (db m)) = 5%nat.
Proof.
  intros Hperm m. subst m. rewrite run_placeCoins.
  cbn [queue log db refilled with_coins coins].
  split; [done|]. split; [by apply refill_log_fair|]. split; [done|].
  split; [by apply coin_field_size|]. split; [|split; [|split]].
  - intros cell value Hc.
    apply (coin_field_cell perm) in Hc as (i & position & _ & Hl & -> & _).
    apply index_in_grid, (perm_range perm Hperm).
    by eapply list_elem_of_lookup_2.
  - intros i position. by apply coin_field_rank.
  - apply coinValue_tiers.
  - by apply coin_field_values.
Qed.

Lemma placeCoins_field_witness :
  let perm := seqZ 0 4096 in
  let m := run (placeCoins perm) example_store in
  queue m = []
  ∧ log m = [Console CoinsCleared; Console (Replies (replicate 100 (Int 1)))]
  ∧ db m = with_coins (coins (db m)) example_store
  ∧ size (coins (db m)) = 100%nat
  ∧ (∀ cell value, coins (db m) !! cell = Some value → in_grid cell)
  ∧ (∀ i position,
       (i < 100)%nat → perm !! i = Some position →
       coins (db m) !! index position = Some (coinValue i))
  ∧ (∀ i, ((i < 50)%nat → coinValue i = 1)
          ∧ ((50 <= i < 75)%nat → coinValue i = 2)
          ∧ ((75 <= i < 95)%nat → coinValue i = 5)
          ∧ ((95 <= i)%nat → coinValue i = 10))
  ∧ coins_of_value 1 (coins (db m)) = 50%nat
  ∧ coins_of_value 2 (coins (db m)) = 25%nat
  ∧ coins_of_value 5 (coins (db m)) = 20%nat
  ∧ coins_of_value 10 (coins (db m)) = 5%nat.
Proof.
  apply (placeCoins_field example_store (seqZ 0 4096)).
  unfold is_permutation, WIDTH, HEIGHT. simpl (64 * 64). reflexivity.
Defined.

(** C5, as the code has it.  When a move is served with no other call in
    flight and picks up the only coin left, [placeCoins] is invoked
    exactly once and the field holds exactly 100 coins afterwards; a move
    after which coins remain on the field invokes no refill. *)
Theorem move_last_coin_refills_once s direction name perm d p :
  is_permutation (WIDTH * HEIGHT) perm →
  delta direction = Some d → players s !! name = Some p →
  let dest := destination d p in
  let m := run (move direction name perm) s in
  queue m = []
  ∧ (∀ value, coins s = {[dest := value]} →
       refills (log m) = 1%nat
       ∧ coins (db m) = coin_field perm
       ∧ size (coins (db m)) = 100%nat)
  ∧ (delete dest (coins s) ≠ ∅ →
       refills (log m) = 0%nat ∧ coins (db m) = delete dest (coins s)).
Proof.
  intros Hperm Hd Hp dest m.
  destruct (run_move_settled direction name perm s d p Hd Hp)
    as (Hq & _ & Hdb & Hlog). fold m dest in Hq, Hdb, Hlog.
  split; [done|]. split.
  - intros value Hlast.
    assert (coins (moved name dest s) = ∅) as He.
    { unfold moved. rewrite Hlast, lookup_singleton_eq. cbn [coins].
      apply delete_singleton_eq. }
    rewrite decide_True in Hdb by done. rewrite decide_True in Hlog by done.
    rewrite Hdb, Hlog, refill_log_fair by done. cbn.
    split; [done|]. split; [done|]. by apply coin_field_size.
  - intros Hrest.
    assert (coins (moved name dest s) = delete dest (coins s)) as He.
    { unfold moved. destruct (coins s !! dest) eqn:Hc; cbn; [done|].
      by rewrite delete_id. }
    rewrite decide_False in Hdb by congruence.
    rewrite decide_False in Hlog by congruence.
    by rewrite Hdb, Hlog.
Qed.

Lemma move_last_coin_refills_once_witness :
  let dest := destination (1, 0) (5, 5) in
  let m := run (move "R" "Alice" (seqZ 0 4096)) last_coin_store in
  queue m = []
  ∧ (∀ value, coins last_coin_store = {[dest := value]} →
       refills (log m) = 1%nat
       ∧ coins (db m) = coin_field (seqZ 0 4096)
       ∧ size (coins (db m)) = 100%nat)
  ∧ (delete dest (coins last_coin_store) ≠ ∅ →
       refills (log m) = 0%nat
       ∧ coins (db m) = delete dest (coins last_coin_store)).
Proof.
  apply (move_last_coin_refills_once last_coin_store "R" "Alice"
           (seqZ 0 4096) (1, 0) (5, 5)).
  - unfold is_permutation, WIDTH, HEIGHT. simpl (64 * 64). reflexivity.
  - reflexivity.
  - vm_compute. reflexivity.
Defined.

(** C5, counterexample.  Both permutations are permutations of the 4096
    indices, Alice picks up the last coin and Bob picks up nothing; both
    read a coin count of 0, both invoke [placeCoins], and the field ends
    with 200 coins: two refills for one depletion. *)
Lemma two_movers_refill_twice :
  let m := play two_movers (idle last_coin_store) in
  is_permutation (WIDTH * HEIGHT) (seqZ 0 4096)
  ∧ is_permutation (WIDTH * HEIGHT) (reverse (seqZ 0 4096))
  ∧ size (coins last_coin_store) = 1%nat
  ∧ queue m = [] ∧ alive m = true
  ∧ scores (db m) !! "Alice" = Some 2 ∧ scores (db m) !! "Bob" = Some 0
  ∧ refills (log m) = 2%nat
  ∧ size (coins (db m)) = 200%nat.
Proof.
  split.
  { unfold is_permutation, WIDTH, HEIGHT. simpl (64 * 64). reflexivity. }
  split.
  { unfold is_permutation, WIDTH, HEIGHT. simpl (64 * 64).
    apply reverse_Permutation. }
  split_and!; by vm_compute.
Qed.

(** * The snapshot *)

(** C7 (the code at the failing input).  [state] of src/server/game.js
    sends [KEYS] and [MGET], whose callbacks do nothing with the replies,
    and returns null: whatever the store holds, the caller gets no
    snapshot, neither as return value nor through a callback. *)
Theorem state_returns_null s :
  run state s = mkMachine s [] [ReturnNull] true.
Proof. apply run_state. Qed.

Lemma substring_all (s : string) : String.substring 0 (String.length s) s = s.
Proof. induction s as [|c s IH]; [done|]. cbn. by rewrite IH. Qed.

Lemma substring7_player_key name : Part000.substring7 (player_key name) = name.
Proof.
  unfold Part000.substring7, player_key, String.app. cbn.
  rewrite Nat.sub_0_r. apply substring_all.
Qed.

Lemma get_string_player_key name s :
  get_string (player_key name) s = players s !! name.
Proof.
  unfold get_string. fold (Part000.substring7 (player_key name)).
  rewrite substring7_player_key.
  unfold player_key, String.app. cbn. by destruct name.
Qed.

Lemma forEach_names_lookup (h : string → option Pos) ks done_ acc k :
  Part000.forEach_names (length done_) (player_key <$> ks)
    (done_ ++ (h <$> ks)) acc !! k =
  if decide (k ∈ ks) then Some (h k) else acc !! k.
Proof.
  revert done_ acc. induction ks as [|n ks IH]; intros done_ acc.
  { cbn. rewrite decide_False; [done|]. apply not_elem_of_nil. }
  cbn [fmap list_fmap Part000.forEach_names].
  rewrite substring7_player_key.
  replace (done_ ++ h n :: (h <$> ks)) with ((done_ ++ [h n]) ++ (h <$> ks))
    by (by rewrite <- app_assoc).
  replace (S (length done_)) with (length (done_ ++ [h n]))
    by (rewrite length_app; cbn; lia).
  rewrite IH.
  rewrite lookup_app_l by (rewrite length_app; cbn; lia).
  rewrite lookup_app_r by lia. rewrite Nat.sub_diag. cbn.
  destruct (decide (k ∈ ks)) as [Hin|Hout].
  - rewrite decide_True; [done|]. apply elem_of_cons. by right.
  - destruct (decide (k = n)) as [->|Hne].
    + rewrite lookup_insert_eq. rewrite decide_True; [done|].
      apply elem_of_cons. by left.
    + rewrite lookup_insert_ne by done. rewrite decide_False; [done|].
      intros [?|?]%elem_of_cons; done.
Qed.

Lemma forEach_names_players s :
  Part000.forEach_names 0
    (player_key <$> (map_to_list (players s)).*1)
    ((fun k => get_string k s) <$> (player_key <$> (map_to_list (players s)).*1))
    ∅ = Some <$> players s.
Proof.
  apply map_eq. intros k.
  set (ks := (map_to_list (players s)).*1).
  rewrite <- (list_fmap_compose player_key (fun k => get_string k s) ks).
  rewrite (list_fmap_ext _ (fun n => players s !! n)).
  2:{ intros. cbn. apply get_string_player_key. }
  pose proof (forEach_names_lookup (fun n => players s !! n) ks [] ∅ k)
    as Hlook.
  cbn [length app] in Hlook. rewrite Hlook. clear Hlook. subst ks.
  rewrite lookup_fmap, lookup_empty. case_decide as Hin.
  - apply list_elem_of_fmap in Hin as ([k' p] & -> & Hin).
    apply elem_of_map_to_list in Hin. cbn. by rewrite Hin.
  - destruct (players s !! k) as [p|] eqn:Hk; [|done].
    exfalso. apply Hin. apply list_elem_of_fmap. exists (k, p).
    split; [done|]. by apply elem_of_map_to_list.
Qed.

Lemma pairs_with_scores l :
  Part000.pairs (with_scores_flat l) =
  (fun e : string * Z => (Some (Member e.1), Some (Score e.2))) <$> l.
Proof. induction l as [|e l IH]; [done|]. cbn. by rewrite <- IH. Qed.

Lemma run_part000_state s :
  players s ≠ ∅ →
  run Part000.state s =
  mkMachine s []
    [ReturnNull;
     CallbackState
       (mkSnapshot (Some <$> players s) (Part000.ranking (scores s))
                   (if decide (coins s = ∅) then None else Some (coins s)))]
    true.
Proof.
  intros Hne. unfold run, Part000.state, call_fuel.
  cbn [perform idle queue db log alive app]. rewrite drain_send.
  cbn [exec fst snd perform queue db log alive app]. rewrite drain_send.
  cbn [exec fst snd].
  destruct (map_to_list (players s)) as [|e l] eqn:Hl.
  { by apply map_to_list_empty_iff in Hl. }
  rewrite <- Hl. clear Hl e l.
  destruct (player_key <$> (map_to_list (players s)).*1) as [|key keys] eqn:Hk.
  { apply fmap_nil_inv, fmap_nil_inv, map_to_list_empty_iff in Hk. done. }
  rewrite <- Hk. clear Hk key keys.
  cbn [perform queue db log alive app]. rewrite drain_send.
  cbn [exec fst snd perform queue db log alive app]. rewrite drain_send.
  cbn [exec fst snd perform queue db log alive app]. rewrite drain_done.
  by rewrite forEach_names_players, pairs_with_scores.
Qed.

Lemma run_part000_state_empty s :
  players s = ∅ →
  run Part000.state s = mkMachine s [] [ReturnNull; CallbackErr] true.
Proof.
  intros He. unfold run, Part000.state, call_fuel.
  cbn [perform idle queue db log alive app]. rewrite drain_send.
  cbn [exec fst snd perform queue db log alive app]. rewrite drain_send.
  cbn [exec fst snd]. rewrite He, map_to_list_empty. cbn. done.
Qed.

Lemma string_leb_spec a b :
  String.leb a b = true ↔ OrderedTypeEx.String_as_OT.lt a b ∨ a = b.
Proof.
  unfold String.leb.
  rewrite <- OrderedTypeEx.String_as_OT.cmp_lt,
          <- OrderedTypeEx.String_as_OT.cmp_eq.
  unfold OrderedTypeEx.String_as_OT.cmp.
  destruct (String.compare a b); naive_solver.
Qed.

Lemma string_leb_trans a b c :
  String.leb a b = true → String.leb b c = true → String.leb a c = true.
Proof.
  rewrite !string_leb_spec. intros [Hab| ->] [Hbc| ->]; auto.
  left. by eapply OrderedTypeEx.String_as_OT.lt_trans.
Qed.

Lemma zset_leb_spec a b :
  zset_leb a b = true ↔ a.2 < b.2 ∨ (a.2 = b.2 ∧ String.leb a.1 b.1 = true).
Proof.
  unfold zset_leb.
  rewrite orb_true_iff, andb_true_iff, Z.ltb_lt, Z.eqb_eq. done.
Qed.

Lemma zset_rev_total :
  Total (fun a b : string * Z => Is_true (zset_leb b a)).
Proof.
  intros a b. rewrite !Is_true_true, !zset_leb_spec.
  destruct (Z.lt_trichotomy a.2 b.2) as [?|[?|?]]; [auto| |auto].
  destruct (String.leb_total a.1 b.1); auto.
Qed.

Lemma zset_rev_trans :
  Transitive (fun a b : string * Z => Is_true (zset_leb b a)).
Proof.
  intros a b c. rewrite !Is_true_true, !zset_leb_spec.
  intros [?|[? Hba]] [?|[? Hcb]]; [left; lia..|].
  right. split; [lia|]. by eapply string_leb_trans.
Qed.

Lemma zrevrange_Permutation sc : zrevrange sc ≡ₚ map_to_list sc.
Proof. apply merge_sort_Permutation. Qed.

Lemma zrevrange_sorted sc :
  StronglySorted (fun a b : string * Z => Is_true (zset_leb b a)) (zrevrange sc).
Proof.
  apply StronglySorted_merge_sort; [apply zset_rev_trans|apply zset_rev_total].
Qed.

Lemma StronglySorted_weaken {A} (R1 R2 : relation A) l :
  (∀ a b, R1 a b → R2 a b) → StronglySorted R1 l → StronglySorted R2 l.
Proof.
  intros Himp. induction 1 as [|a l Hl IH Hall]; constructor; [done|].
  eapply Forall_impl; [exact Hall|]. intros b. apply Himp.
Qed.

Lemma zrevrange_descending sc :
  StronglySorted (fun a b : string * Z => b.2 <= a.2) (zrevrange sc).
Proof.
  eapply StronglySorted_weaken; [|apply zrevrange_sorted].
  intros a b. rewrite Is_true_true, zset_leb_spec. lia.
Qed.

(** The second copy of the module does what [state] of game.js does not:
    with at least one position record in the store its callback receives
    the snapshot, with every position record, the coin field, and the
    score board from the highest score down (equal scores by name, from
    the greatest name down). *)
Lemma part000_state_snapshot s :
  players s ≠ ∅ →
  ∃ snap,
    log (run Part000.state s) = [ReturnNull; CallbackState snap]
    ∧ db (run Part000.state s) = s
    ∧ snap_positions snap = Some <$> players s
    ∧ snap_coins snap = (if decide (coins s = ∅) then None else Some (coins s))
    ∧ snap_scores snap = Part000.ranking (scores s)
    ∧ zrevrange (scores s) ≡ₚ map_to_list (scores s)
    ∧ StronglySorted (fun a b : string * Z => b.2 <= a.2) (zrevrange (scores s))
    ∧ StronglySorted (fun a b : string * Z => Is_true (zset_leb b a))
        (zrevrange (scores s)).
Proof.
  intros Hne. rewrite run_part000_state by done. eexists. cbn.
  split_and!; try done.
  - apply zrevrange_Permutation.
  - apply zrevrange_descending.
  - apply zrevrange_sorted.
Qed.

(** * Further properties of the handlers *)




(** X2.  Whatever calls are served one after the other, with whatever
    values for the random draws, a store in which the registry, the
    position records and the score board name the same players stays
    such a store. *)
Theorem names_stay_in_step cs s :
  consistent s →
  dom (players (serve_calls cs s)) = usednames (serve_calls cs s)
  ∧ dom (scores (serve_calls cs s)) = usednames (serve_calls cs s).
Proof. intros Hs. by apply (consistent_serve_calls cs). Qed.

Lemma names_stay_in_step_witness :
  let cs := [AddPlayer "Carol" (70, -3); Move "D" "Alice" [];
             AddPlayer "" (1, 1); Move "L" "Nobody" [7; 7]] in
  dom (players (serve_calls cs example_store)) =
    usednames (serve_calls cs example_store)
  ∧ dom (scores (serve_calls cs example_store)) =
    usednames (serve_calls cs example_store).
Proof.
  apply (names_stay_in_step
           [AddPlayer "Carol" (70, -3); Move "D" "Alice" [];
            AddPlayer "" (1, 1); Move "L" "Nobody" [7; 7]] example_store).
  split; vm_compute; reflexivity.
Defined.

Lemma records_run c s :
  dom (players s) ⊆ dom (players (db (run (handler c) s)))
  ∧ dom (scores s) ⊆ dom (scores (db (run (handler c) s))).
Proof.
  destruct c as [name point|direction name perm| |perm]; cbn [handler].
  - destruct (run_addPlayer_cases name point s) as [->|(_ & _ & ->)];
      [done|]. cbn. rewrite !dom_insert_L. split; set_solver.
  - destruct (run_move_cases direction name perm s)
      as [->|(d & p & _ & _ & Hdb)]; [done|].
    assert (dom (players s) ⊆ dom (players (moved name (destination d p) s))
            ∧ dom (scores s) ⊆ dom (scores (moved name (destination d p) s)))
      as Hm.
    { unfold moved. destruct (coins s !! destination d p); cbn;
        rewrite ?dom_insert_L; split; set_solver. }
    by destruct Hdb as [-> | ->].
  - by rewrite run_state.
  - unfold startup. by rewrite run_placeCoins.
Qed.

(** X3.  No call ever removes a name from the registry, a position record
    or a score entry: after any sequence of calls everything that was
    there is still there. *)
Theorem nothing_is_forgotten cs s :
  usednames s ⊆ usednames (serve_calls cs s)
  ∧ dom (players s) ⊆ dom (players (serve_calls cs s))
  ∧ dom (scores s) ⊆ dom (scores (serve_calls cs s)).
Proof.
  split; [apply usednames_serve_calls|].
  revert s. induction cs as [|c cs IH]; intros s; [done|].
  cbn [serve_calls foldl].
  destruct (records_run c s) as [Hp Hs].
  destruct (IH (db (run (handler c) s))) as [Hp' Hs'].
  split; etrans; done.
Qed.



(** X5.  The field key of [placeCoins] is a bijection between the indices
    0..4095 and the cells of the grid: the key of an index is a cell
    [(r, c)] of the grid with [64 r + c] the index, and every cell of the
    grid is the key of its index [64 r + c]. *)
Theorem index_round_trip :
  (∀ position, 0 <= position < WIDTH * HEIGHT →
     in_grid (index position)
     ∧ (index position).1 * WIDTH + (index position).2 = position)
  ∧ (∀ r c, in_grid (r, c) → index (r * WIDTH + c) = (r, c)).
Proof.
  split.
  - intros position Hpos. split; [by apply index_in_grid|].
    unfold index, WIDTH in *. cbn [fst snd].
    rewrite Z.rem_mod_nonneg by lia.
    pose proof (Z.div_mod position 64). lia.
  - intros r c [Hr Hc]. unfold index, WIDTH, HEIGHT in *. cbn [fst snd] in *.
    rewrite Z.rem_mod_nonneg by lia. f_equal.
    + rewrite Z.div_add_l by lia. rewrite Z.div_small by lia. lia.
    + rewrite Z.add_comm, Z.mod_add by lia. apply Z.mod_small. lia.
Qed.

Lemma run_move_position direction name perm s d p :
  delta direction = Some d → players s !! name = Some p →
  players (db (run (move direction name perm) s)) !! name =
  Some (destination d p).
Proof.
  intros Hd Hp.
  destruct (run_move_settled direction name perm s d p Hd Hp)
    as (_ & _ & Hdb & _). rewrite Hdb.
  case_decide; cbn; rewrite moved_players; apply lookup_insert_eq.
Qed.

(** X6.  A step followed by the opposite step: when the first step stays
    inside the grid the player is back on the starting cell; when the
    first step runs into a wall the player stays put and the opposite
    step then moves one cell away from that wall. *)
Theorem move_there_and_back s name there back d x y perm1 perm2 :
  delta there = Some d → delta back = Some (- d.1, - d.2) →
  players s !! name = Some (x, y) → in_grid (x, y) →
  let s1 := db (run (move there name perm1) s) in
  let s2 := db (run (move back name perm2) s1) in
  (in_grid (x + d.1, y + d.2) → players s2 !! name = Some (x, y))
  ∧ (¬ in_grid (x + d.1, y + d.2) →
     players s1 !! name = Some (x, y)
     ∧ players s2 !! name = Some (x - d.1, y - d.2)).
Proof.
  intros Hthere Hback Hp [Hx Hy] s1 s2. cbn [fst snd] in Hx, Hy.
  pose proof (run_move_position there name perm1 s d (x, y) Hthere Hp) as H1.
  fold s1 in H1.
  pose proof (run_move_position back name perm2 s1 _ _ Hback H1) as H2.
  fold s2 in H2. rewrite H1, H2. clear H1 H2.
  unfold destination, in_grid, WIDTH, HEIGHT in *. cbn [fst snd].
  destruct (delta_unit _ _ Hthere) as [->|[->|[->| ->]]]; cbn [fst snd];
    unfold clamp;
    repeat match goal with
           | |- context [?a <? ?b] => destruct (Z.ltb_spec a b)
           end;
    (split; [intros [? ?]|intros ?]); try (exfalso; lia);
    repeat split; f_equal; f_equal; lia.
Qed.

Lemma move_there_and_back_witness :
  let s := example_store in
  let s1 := db (run (move "L" "Bob" []) s) in
  let s2 := db (run (move "R" "Bob" []) s1) in
  (in_grid (0 + (-1, 0).1, 0 + (-1, 0).2) → players s2 !! "Bob" = Some (0, 0))
  ∧ (¬ in_grid (0 + (-1, 0).1, 0 + (-1, 0).2) →
     players s1 !! "Bob" = Some (0, 0)
     ∧ players s2 !! "Bob" = Some (0 - (-1, 0).1, 0 - (-1, 0).2)).
Proof.
  apply (move_there_and_back example_store "Bob" "L" "R" (-1, 0) 0 0 [] []).
  - reflexivity.
  - reflexivity.
  - vm_compute. reflexivity.
  - unfold in_grid, WIDTH, HEIGHT. simpl. lia.
Defined.

Lemma coinValue_cases i :
  coinValue i = 1 ∨ coinValue i = 2 ∨ coinValue i = 5 ∨ coinValue i = 10.
Proof. unfold coinValue. repeat case_match; auto. Qed.

Lemma field_ok_refilled perm s :
  is_permutation (WIDTH * HEIGHT) perm → field_ok (refilled perm s).
Proof.
  intros Hperm. unfold field_ok, refilled. cbn [coins with_coins]. split.
  - rewrite coin_field_size by done. done.
  - intros cell v Hc.
    apply (coin_field_cell perm) in Hc as (i & position & _ & Hl & -> & ->).
    split; [|apply coinValue_cases].
    apply index_in_grid, (perm_range perm Hperm).
    by eapply list_elem_of_lookup_2.
Qed.

Lemma field_ok_moved name dest s : field_ok s → field_ok (moved name dest s).
Proof.
  intros [Hsize Hcells]. unfold moved.
  destruct (coins s !! dest) eqn:Hc; [|done]. split; cbn.
  - pose proof (map_size_delete dest (coins s)) as Hd. rewrite Hc in Hd.
    lia.
  - intros cell v [_ Hv]%lookup_delete_Some. by apply Hcells.
Qed.

Lemma field_ok_run c s :
  fair c → field_ok s → field_ok (db (run (handler c) s)).
Proof.
  intros Hc Hs. destruct c as [name point|direction name perm| |perm];
    cbn [handler fair] in *.
  - by destruct (run_addPlayer_cases name point s) as [->|(_ & _ & ->)].
  - destruct (run_move_cases direction name perm s)
      as [->|(d & p & _ & _ & [->| ->])]; [done|..].
    + by apply field_ok_moved.
    + by apply field_ok_refilled.
  - by rewrite run_state.
  - unfold startup. rewrite run_placeCoins. by apply field_ok_refilled.
Qed.

Lemma field_ok_serve_calls cs s :
  Forall fair cs → field_ok s → field_ok (serve_calls cs s).
Proof.
  intros Hcs. revert s. induction Hcs as [|c cs Hc Hcs IH]; intros s Hs;
    [done|]. cbn [serve_calls foldl]. apply IH. by apply field_ok_run.
Qed.

(** X7.  Whatever the store held before the server started (even a coin
    field left over from an earlier run): after the start-up call of
    [placeCoins] and any calls served one at a time with fair random
    draws, the coin field holds at most 100 coins, all on cells of the
    grid, all of value 1, 2, 5 or 10. *)
Theorem coin_field_stays_bounded perm cs s0 :
  is_permutation (WIDTH * HEIGHT) perm → Forall fair cs →
  let s := serve_calls (Startup perm :: cs) s0 in
  (size (coins s) <= 100)%nat
  ∧ ∀ cell v, coins s !! cell = Some v →
      in_grid cell ∧ (v = 1 ∨ v = 2 ∨ v = 5 ∨ v = 10).
Proof.
  intros Hperm Hcs. cbn [serve_calls foldl handler].
  apply (field_ok_serve_calls cs); [done|].
  unfold startup. rewrite run_placeCoins. by apply field_ok_refilled.
Qed.

Lemma coin_field_stays_bounded_witness :
  let s := serve_calls
             (Startup (seqZ 0 4096)
              :: [AddPlayer "Carol" (0, 0); Move "R" "Carol" (seqZ 0 4096)])
             example_store in
  (size (coins s) <= 100)%nat
  ∧ ∀ cell v, coins s !! cell = Some v →
      in_grid cell ∧ (v = 1 ∨ v = 2 ∨ v = 5 ∨ v = 10).
Proof.
  apply (coin_field_stays_bounded (seqZ 0 4096)
           [AddPlayer "Carol" (0, 0); Move "R" "Carol" (seqZ 0 4096)]
           example_store).
  - unfold is_permutation, WIDTH, HEIGHT. simpl (64 * 64). reflexivity.
  - constructor.
    { unfold fair, is_randomPoint, WIDTH, HEIGHT. simpl. lia. }
    constructor; [|constructor].
    unfold fair, is_permutation, WIDTH, HEIGHT. simpl (64 * 64). reflexivity.
Defined.

Lemma score_run c s name v :
  consistent s → field_ok s → scores s !! name = Some v →
  ∃ v', scores (db (run (handler c) s)) !! name = Some v' ∧ v <= v'.
Proof.
  intros Hs [_ Hcells] Hv.
  destruct c as [n point|direction n perm| |perm]; cbn [handler].
  - destruct (run_addPlayer_cases n point s) as [->|(_ & Hn & ->)].
    { exists v. by split. }
    destruct (consistent_fresh n s Hs Hn) as [_ Hnone].
    exists v. split; [|lia]. cbn. rewrite lookup_insert_ne; [done|].
    intros ->. congruence.
  - destruct (run_move_cases direction n perm s)
      as [->|(d & p & _ & _ & Hdb)].
    { exists v. by split. }
    assert (∃ v', scores (moved n (destination d p) s) !! name = Some v'
                  ∧ v <= v') as (v' & Hv' & Hle).
    { unfold moved. destruct (coins s !! destination d p) as [value|] eqn:Hc.
      2:{ exists v. by split. }
      cbn. destruct (decide (n = name)) as [->|Hne].
      - rewrite lookup_insert_eq, Hv. eexists. split; [done|]. cbn.
        destruct (Hcells _ _ Hc) as [_ Hval]. lia.
      - rewrite lookup_insert_ne by done. exists v. by split. }
    exists v'. split; [|done]. by destruct Hdb as [-> | ->].
  - rewrite run_state. exists v. by split.
  - unfold startup. rewrite run_placeCoins. exists v. by split.
Qed.

(** X8.  A score never goes down: on a consistent store whose coins have
    the values the game places, after any calls served one at a time with
    fair random draws every player still has a score entry and it is at
    least what it was. *)
Theorem scores_never_decrease cs s name v :
  consistent s → field_ok s → Forall fair cs →
  scores s !! name = Some v →
  ∃ v', scores (serve_calls cs s) !! name = Some v' ∧ v <= v'.
Proof.
  intros Hs Hf Hcs. revert s v Hs Hf.
  induction Hcs as [|c cs Hc Hcs IH]; intros s v Hs Hf Hv.
  { exists v. by split. }
  cbn [serve_calls foldl].
  destruct (score_run c s name v Hs Hf Hv) as (v1 & Hv1 & Hle1).
  destruct (IH (db (run (handler c) s)) v1) as (v2 & Hv2 & Hle2);
    [by apply consistent_run|by apply field_ok_run|done|].
  exists v2. split; [done|lia].
Qed.

Lemma scores_never_decrease_witness :
  ∃ v', scores (serve_calls [Move "R" "Alice" (seqZ 0 4096);
                             AddPlayer "Alice" (1, 1)]
                  example_store) !! "Alice" = Some v'
        ∧ 0 <= v'.
Proof.
  apply (scores_never_decrease
           [Move "R" "Alice" (seqZ 0 4096); AddPlayer "Alice" (1, 1)]
           example_store "Alice" 0).
  - split; vm_compute; reflexivity.
  - split.
    + vm_compute. lia.
    + intros cell v. unfold example_store. cbn [coins].
      rewrite !lookup_insert, lookup_empty.
      repeat case_decide; intros [= <-]; subst;
        unfold in_grid, WIDTH, HEIGHT; simpl; lia.
  - constructor; [|constructor; [|constructor]].
    + unfold fair, is_permutation, WIDTH, HEIGHT. simpl (64 * 64).
      reflexivity.
    + unfold fair, is_randomPoint, WIDTH, HEIGHT. simpl. lia.
  - vm_compute. reflexivity.
Defined.

Section totals.
Context `{Countable K}.

Lemma total_empty : total (∅ : gmap K Z) = 0.
Proof. unfold total. apply map_fold_empty. Qed.

Lemma total_insert_fresh (m : gmap K Z) k v :
  m !! k = None → total (<[k := v]> m) = v + total m.
Proof.
  intros Hk. unfold total. rewrite map_fold_insert_L; [done| |done].
  intros. lia.
Qed.

Lemma total_delete (m : gmap K Z) k v :
  m !! k = Some v → total (delete k m) = total m - v.
Proof.
  intros Hk. unfold total.
  rewrite (map_fold_delete_L _ _ k v m); [lia| |done]. intros. lia.
Qed.

Lemma total_insert_over (m : gmap K Z) k v old :
  m !! k = Some old → total (<[k := v]> m) = total m - old + v.
Proof.
  intros Hk. rewrite <- insert_delete_eq.
  rewrite total_insert_fresh by apply lookup_delete_eq.
  rewrite (total_delete m k old) by done. lia.
Qed.

Lemma total_list_to_map (l : list (K * Z)) :
  NoDup l.*1 → total (list_to_map l : gmap K Z) = foldr Z.add 0 l.*2.
Proof.
  induction l as [|[k v] l IH]; intros Hnd.
  { apply total_empty. }
  rewrite fmap_cons in Hnd. apply NoDup_cons in Hnd as [Hk Hnd].
  cbn [list_to_map foldr fmap list_fmap snd].
  rewrite total_insert_fresh by (by apply not_elem_of_list_to_map_1).
  by rewrite IH.
Qed.
End totals.

Lemma coin_field_total perm :
  is_permutation (WIDTH * HEIGHT) perm → total (coin_field perm) = 250.
Proof.
  intros Hperm. unfold coin_field.
  rewrite total_list_to_map by (by apply coin_cells_NoDup).
  by rewrite coin_cells_snd.
Qed.

(** X9.  A fresh coin field is worth 250 points: the values of the 100
    coins that [placeCoins] writes add up to 50*1 + 25*2 + 20*5 + 5*10. *)
Theorem fresh_field_is_worth_250 s perm :
  is_permutation (WIDTH * HEIGHT) perm →
  total (coins (db (run (placeCoins perm) s))) = 250.
Proof.
  intros Hperm. rewrite run_placeCoins. cbn [db refilled with_coins coins].
  by apply coin_field_total.
Qed.

Lemma fresh_field_is_worth_250_witness :
  total (coins (db (run (placeCoins (reverse (seqZ 0 4096))) example_store)))
  = 250.
Proof.
  apply (fresh_field_is_worth_250 example_store (reverse (seqZ 0 4096))).
  unfold is_permutation, WIDTH, HEIGHT. simpl (64 * 64).
  apply reverse_Permutation.
Defined.

(** X10.  Points are moved, not made: on a consistent store a move adds to
    the sum of all scores exactly the value of the coin on the destination
    cell (nothing if there is none), and takes that value off the field.
    So as long as the move does not empty the field, scores plus coins on
    the field add up to the same amount before and after; when it empties
    the field, the refilled field is worth 250 again. *)
Theorem move_accounts_for_points s direction name perm d p :
  consistent s → is_permutation (WIDTH * HEIGHT) perm →
  delta direction = Some d → players s !! name = Some p →
  let dest := destination d p in
  let gain := default 0 (coins s !! dest) in
  let m := run (move direction name perm) s in
  total (scores (db m)) = total (scores s) + gain
  ∧ (delete dest (coins s) ≠ ∅ →
       total (coins (db m)) = total (coins s) - gain
       ∧ total (scores (db m)) + total (coins (db m)) =
         total (scores s) + total (coins s))
  ∧ (delete dest (coins s) = ∅ → total (coins (db m)) = 250).
Proof.
  intros [Hpl Hsc] Hperm Hd Hp dest gain m.
  destruct (run_move_settled direction name perm s d p Hd Hp)
    as (_ & _ & Hdb & _). fold m dest in Hdb.
  assert (is_Some (scores s !! name)) as [before Hb].
  { apply elem_of_dom. rewrite Hsc, <- Hpl. apply elem_of_dom. eauto. }
  assert (total (scores (moved name dest s)) = total (scores s) + gain
          ∧ coins (moved name dest s) = delete dest (coins s)
          ∧ total (delete dest (coins s)) = total (coins s) - gain)
    as (Hscore & Hfield & Htotal).
  { unfold moved, gain. destruct (coins s !! dest) as [value|] eqn:Hc; cbn.
    - rewrite Hb. cbn. rewrite (total_insert_over _ _ _ before) by done.
      rewrite (total_delete _ _ value) by done. split_and!; [lia|done|lia].
    - rewrite delete_id by done. split_and!; [lia|done|lia]. }
  rewrite Hfield in Hdb. split; [|split].
  - rewrite Hdb. by case_decide.
  - intros Hrest. rewrite decide_False in Hdb by done. rewrite Hdb.
    rewrite Hscore, Hfield, Htotal. split; lia.
  - intros Hlast. rewrite decide_True in Hdb by done. rewrite Hdb.
    cbn [coins refilled with_coins]. by apply coin_field_total.
Qed.

Lemma move_accounts_for_points_witness :
  let s := example_store in
  let dest := destination (1, 0) (5, 5) in
  let gain := default 0 (coins s !! dest) in
  let m := run (move "R" "Alice" (seqZ 0 4096)) s in
  total (scores (db m)) = total (scores s) + gain
  ∧ (delete dest (coins s) ≠ ∅ →
       total (coins (db m)) = total (coins s) - gain
       ∧ total (scores (db m)) + total (coins (db m)) =
         total (scores s) + total (coins s))
  ∧ (delete dest (coins s) = ∅ → total (coins (db m)) = 250).
Proof.
  apply (move_accounts_for_points example_store "R" "Alice" (seqZ 0 4096)
           (1, 0) (5, 5)).
  - split; vm_compute; reflexivity.
  - unfold is_permutation, WIDTH, HEIGHT. simpl (64 * 64). reflexivity.
  - reflexivity.
  - vm_compute. reflexivity.
Defined.

(** * Calls that overlap *)

Lemma play_arrive c os s q l :
  play (Arrive c :: os) (mkMachine s q l true) =
  play os (perform (handler c) (mkMachine s q l true)).
Proof. done. Qed.

Lemma play_serve {R} (c : command R) k os s q l :
  play (Serve :: os) (mkMachine s (Pending c k :: q) l true) =
  play os (perform (k (exec c s).2) (mkMachine (exec c s).1 q l true)).
Proof.
  cbn [play foldl occur step queue db alive log]. by destruct (exec c s).
Qed.

Lemma play_nil m : play [] m = m.
Proof. done. Qed.

Lemma name_guard_false name :
  name_valid name →
  (Z.of_nat (String.length name) =? 0)
  || (MAX_PLAYER_NAME_LENGTH <? Z.of_nat (String.length name)) = false.
Proof.
  unfold name_valid, MAX_PLAYER_NAME_LENGTH. intros.
  apply orb_false_iff. rewrite Z.eqb_neq, Z.ltb_ge. lia.
Qed.


(** X11.  Two [addPlayer] calls for the same fresh name that both arrive
    before Redis has answered: both registry checks find the name free and
    both batches are applied.  The first caller is told [true] and the
    second [false], but the second batch has overwritten the position
    record: the player starts on the point drawn for the refused call. *)
Theorem overlapping_admissions s name p1 p2 :
  name_valid name → name ∉ usednames s → scores s !! name = None →
  let m := play (two_admissions name p1 p2) (idle s) in
  queue m = [] ∧ alive m = true
  ∧ log m = [Console (Replies [Int 1; OK; Int 1]); Callback true;
             Console (Replies [Int 0; OK; Int 0]); Callback false]
  ∧ db m = joined name p2 s.
Proof.
  intros Hlen Hnew Hsc m.
  assert (m = mkMachine (joined name p2 s) []
                [Console (Replies [Int 1; OK; Int 1]); Callback true;
                 Console (Replies [Int 0; OK; Int 0]); Callback false] true)
    as ->; [|done].
  subst m. unfold two_admissions, idle.
  cbn [app replicate]. rewrite play_arrive. cbn [handler].
  unfold addPlayer at 1. cbn [perform queue db log alive app].
  rewrite play_arrive. cbn [handler].
  unfold addPlayer at 1. cbn [perform queue db log alive app].
  rewrite name_guard_false by done.
  rewrite play_serve. cbn [exec fst snd]. rewrite decide_False by done.
  cbn [orb negb Z.eqb perform queue db log alive app].
  rewrite play_serve. cbn [exec fst snd]. rewrite decide_False by done.
  cbn [orb negb Z.eqb perform queue db log alive app].
  rewrite play_serve. cbn [exec do_multi do_write].
  rewrite decide_False by done.
  cbn [with_usednames with_players with_scores usednames players scores coins].
  rewrite Hsc.
  cbn [fst snd perform queue db log alive app fold_left js_and truthy
       Z.eqb negb].
  rewrite play_serve. cbn [exec do_multi do_write with_usednames with_players
                           with_scores usednames players scores coins].
  rewrite decide_True by set_solver. 
  cbn [with_usednames with_players with_scores usednames players scores coins].
  rewrite lookup_insert_eq.
  cbn [fst snd perform queue db log alive app fold_left js_and truthy
       Z.eqb negb play foldl usednames players scores coins].
  unfold joined.
  by rewrite !insert_insert_eq.
Qed.

Lemma overlapping_admissions_witness :
  let m := play (two_admissions "Carol" (1, 2) (60, 61)) (idle example_store) in
  queue m = [] ∧ alive m = true
  ∧ log m = [Console (Replies [Int 1; OK; Int 1]); Callback true;
             Console (Replies [Int 0; OK; Int 0]); Callback false]
  ∧ db m = joined "Carol" (60, 61) example_store.
Proof.
  apply (overlapping_admissions example_store "Carol" (1, 2) (60, 61)).
  - unfold name_valid. simpl. lia.
  - vm_compute. intros Hin. discriminate Hin.
  - vm_compute. reflexivity.
Defined.

(** X12.  Two moves of different players onto the same coin that both
    arrive before Redis has answered: both reads of the cell see the coin,
    so both players are credited its value although only one coin leaves
    the field (here other coins remain, so no refill follows). *)
Theorem overlapping_pickups s dir1 n1 dir2 n2 perm1 perm2 d1 d2 p1 p2 v :
  n1 ≠ n2 → delta dir1 = Some d1 → delta dir2 = Some d2 →
  players s !! n1 = Some p1 → players s !! n2 = Some p2 →
  destination d2 p2 = destination d1 p1 →
  coins s !! destination d1 p1 = Some v →
  delete (destination d1 p1) (coins s) ≠ ∅ →
  let dest := destination d1 p1 in
  let m := play (two_moves dir1 n1 dir2 n2 perm1 perm2) (idle s) in
  queue m = [] ∧ alive m = true ∧ log m = []
  ∧ coins (db m) = delete dest (coins s)
  ∧ scores (db m) !! n1 = Some (default 0 (scores s !! n1) + v)
  ∧ scores (db m) !! n2 = Some (default 0 (scores s !! n2) + v)
  ∧ players (db m) !! n1 = Some dest ∧ players (db m) !! n2 = Some dest.
Proof.
  intros Hne Hd1 Hd2 Hp1 Hp2 Hsame Hcoin Hrest dest m.
  assert (m = mkMachine
                (mkStore (usednames s)
                   (<[n2 := dest]> (<[n1 := dest]> (players s)))
                   (<[n2 := default 0 (scores s !! n2) + v]>
                      (<[n1 := default 0 (scores s !! n1) + v]> (scores s)))
                   (delete dest (coins s)))
                [] [] true) as ->.
  2:{ cbn [queue alive log db coins scores players].
      split_and!; try done.
      - rewrite lookup_insert_ne by done. apply lookup_insert_eq.
      - apply lookup_insert_eq.
      - rewrite lookup_insert_ne by done. apply lookup_insert_eq.
      - apply lookup_insert_eq. }
  subst m. unfold two_moves, idle. cbn [app replicate].
  rewrite play_arrive. cbn [handler]. unfold move at 1. rewrite Hd1.
  destruct d1 as [dx1 dy1].
  cbn [perform queue db log alive app].
  rewrite play_arrive. cbn [handler]. unfold move at 1. rewrite Hd2.
  destruct d2 as [dx2 dy2].
  cbn [perform queue db log alive app].
  rewrite play_serve. cbn [exec fst snd]. rewrite Hp1. destruct p1 as [x1 y1].
  cbn [perform queue db log alive app].
  rewrite play_serve. cbn [exec fst snd]. rewrite Hp2. destruct p2 as [x2 y2].
  cbn [perform queue db log alive app].
  unfold destination in Hsame, Hcoin, Hrest, dest. cbn [fst snd] in *.
  rewrite Hsame. fold dest. fold dest in Hcoin, Hrest.
  rewrite play_serve. cbn [exec fst snd]. rewrite Hcoin.
  cbn [perform queue db log alive app Send_].
  rewrite play_serve. cbn [exec fst snd]. rewrite Hcoin.
  cbn [perform queue db log alive app Send_].
  assert ((Z.of_nat (size (delete dest (coins s))) =? 0) = false) as Hlen.
  { apply Z.eqb_neq. apply map_size_non_empty_iff in Hrest. lia. }
  repeat (rewrite play_serve;
          cbn [exec do_write fst snd perform queue db log alive app
               with_scores with_coins with_players usednames players
               scores coins];
          rewrite ?delete_delete_eq, ?Hlen; cbn [perform]).
  rewrite play_nil. f_equal. f_equal.
  rewrite lookup_insert_ne by done. done.
Qed.

Lemma overlapping_pickups_witness :
  let s := with_players (<["Bob" := (7, 5)]> (players example_store))
             example_store in
  let dest := destination (1, 0) (5, 5) in
  let m := play (two_moves "R" "Alice" "L" "Bob" [] []) (idle s) in
  queue m = [] ∧ alive m = true ∧ log m = []
  ∧ coins (db m) = delete dest (coins s)
  ∧ scores (db m) !! "Alice" = Some (default 0 (scores s !! "Alice") + 2)
  ∧ scores (db m) !! "Bob" = Some (default 0 (scores s !! "Bob") + 2)
  ∧ players (db m) !! "Alice" = Some dest ∧ players (db m) !! "Bob" = Some dest.
Proof.
  apply (overlapping_pickups
           (with_players (<["Bob" := (7, 5)]> (players example_store))
              example_store)
           "R" "Alice" "L" "Bob" [] [] (1, 0) (-1, 0) (5, 5) (7, 5) 2).
  - discriminate.
  - reflexivity.
  - reflexivity.
  - vm_compute. reflexivity.
  - vm_compute. reflexivity.
  - vm_compute. reflexivity.
  - vm_compute. reflexivity.
  - vm_compute. discriminate.
Defined.

(** * The second copy of the module *)










(** X15.  With no position record in the store, [state] of the second
    copy sends [MGET] without any key; Redis answers with an error, the
    callback receives that error and no snapshot, and the store is left
    alone. *)
Theorem part000_state_without_players s :
  players s = ∅ →
  run Part000.state s = mkMachine s [] [ReturnNull; CallbackErr] true.
Proof. apply run_part000_state_empty. Qed.

Lemma part000_state_without_players_witness :
  run Part000.state (with_coins {[(6, 5) := 2]} empty_store) =
  mkMachine (with_coins {[(6, 5) := 2]} empty_store) []
    [ReturnNull; CallbackErr] true.
Proof.
  apply (part000_state_without_players (with_coins {[(6, 5) := 2]} empty_store)).
  reflexivity.
Defined.



(** * Edge cases of game.js *)

(** X17.  A move on a store whose coin field is empty picks up nothing
    and still refills: the count read after the position write is 0, so
    [placeCoins] is invoked once and the field holds 100 coins; scores are
    untouched. *)
Theorem move_on_empty_field_refills s direction name perm d p :
  is_permutation (WIDTH * HEIGHT) perm →
  delta direction = Some d → players s !! name = Some p → coins s = ∅ →
  let m := run (move direction name perm) s in
  queue m = [] ∧ refills (log m) = 1%nat
  ∧ coins (db m) = coin_field perm ∧ size (coins (db m)) = 100%nat
  ∧ scores (db m) = scores s
  ∧ players (db m) = <[name := destination d p]> (players s).
Proof.
  intros Hperm Hd Hp He m.
  destruct (run_move_settled direction name perm s d p Hd Hp)
    as (Hq & _ & Hdb & Hlog). fold m in Hq, Hdb, Hlog.
  assert (moved name (destination d p) s =
          with_players (<[name := destination d p]> (players s)) s) as Hm.
  { unfold moved. by rewrite He, lookup_empty. }
  rewrite Hm in Hdb, Hlog. cbn [coins with_players] in Hdb, Hlog.
  rewrite decide_True in Hdb by done. rewrite decide_True in Hlog by done.
  rewrite Hdb, Hlog, refill_log_fair by done.
  cbn [coins scores players refilled with_coins with_players].
  split_and!; try done. by apply coin_field_size.
Qed.

Lemma move_on_empty_field_refills_witness :
  let s := with_coins ∅ example_store in
  let m := run (move "D" "Bob" (seqZ 0 4096)) s in
  queue m = [] ∧ refills (log m) = 1%nat
  ∧ coins (db m) = coin_field (seqZ 0 4096) ∧ size (coins (db m)) = 100%nat
  ∧ scores (db m) = scores s
  ∧ players (db m) = <["Bob" := destination (0, 1) (0, 0)]> (players s).
Proof.
  apply (move_on_empty_field_refills (with_coins ∅ example_store)
           "D" "Bob" (seqZ 0 4096) (0, 1) (0, 0)).
  - unfold is_permutation, WIDTH, HEIGHT. simpl (64 * 64). reflexivity.
  - reflexivity.
  - vm_compute. reflexivity.
  - reflexivity.
Defined.

(** X18.  [addPlayer] reports [true] only if every reply of its batch is
    truthy.  For a name that is not in the registry but already has a
    score entry, the batch is applied in full (the name is registered, the
    position is written, the score is reset to 0) and the callback still
    receives [false], because [zadd] replies 0 for a member that existed. *)
Theorem addPlayer_with_stale_score s name point v :
  name_valid name → name ∉ usednames s → scores s !! name = Some v →
  run (addPlayer name point) s =
  mkMachine (joined name point s) []
    [Console (Replies [Int 1; OK; Int 0]); Callback false] true.
Proof.
  intros Hlen Hnew Hv. rewrite run_addPlayer_fresh by done.
  unfold zadd_reply. by rewrite Hv.
Qed.

Lemma addPlayer_with_stale_score_witness :
  let s := with_usednames {["Bob"]} example_store in
  run (addPlayer "Alice" (9, 9)) s =
  mkMachine (joined "Alice" (9, 9) s) []
    [Console (Replies [Int 1; OK; Int 0]); Callback false] true.
Proof.
  apply (addPlayer_with_stale_score (with_usednames {["Bob"]} example_store)
           "Alice" (9, 9) 0).
  - unfold name_valid. simpl. lia.
  - vm_compute. intros Hin. discriminate Hin.
  - vm_compute. reflexivity.
Defined.


